(** * Phishtank-Project: relationship graphs and their degree filter

    A shallow embedding of the analysis code of [app.py] (and of the
    stand-alone scripts [most_ips.py], [most_domains.py],
    [most_targets.py], [test.py] that repeat its passes): the record
    normaliser [load_data], the three graph builders, the hub selection,
    the one-hop neighbourhood expansion, the induced subgraph with its
    three statistics, and the monthly target count of the fourth tab.

    The library objects the scripts drive are modelled by what the calls
    do to them: a [networkx.Graph] is its two dictionaries [_node] and
    [_adj], a pandas column is the list of its cells, an absent cell
    ([None]/[NaN]) is [None]. *)

From stdpp Require Import base option list gmap sets strings pretty fin_maps fin_sets.
From Stdlib Require Import ZArith Lia Sorted Ascii.

Open Scope string_scope.
Open Scope list_scope.
Open Scope nat_scope.

(** ** Python results: a value or a raised exception *)

Module Py.

Inductive exn := ValueError | KeyError | IndexError.

Inductive result (A : Type) :=
| Ok (a : A)
| Raise (e : exn).
Arguments Ok {A} a.
Arguments Raise {A} e.

Definition bind {A B} (r : result A) (k : A -> result B) : result B :=
  match r with
  | Ok a => k a
  | Raise e => Raise e
  end.

(** [try: body / except: handler], the bare [except] of the scripts,
    which catches every exception. *)
Definition try_except {A} (body : result A) (handler : result A) : result A :=
  match body with
  | Ok a => Ok a
  | Raise _ => handler
  end.

Definition raises {A} (r : result A) : Prop :=
  match r with
  | Ok _ => False
  | Raise _ => True
  end.

End Py.

(** ** networkx.Graph *)

Module Nx.

(** The value of the node attribute [type]. *)
Inductive kind := Kdomain | Kip | Ktarget.

(** The value of the edge attribute [relation]. *)
Inductive relation := HOSTED_ON | IS_IMPERSONATING.

#[export] Instance kind_eq_dec : EqDecision kind.
Proof. solve_decision. Defined.

#[export] Instance relation_eq_dec : EqDecision relation.
Proof. solve_decision. Defined.

(** An attribute dictionary with at most the one key the scripts use:
    [None] is the empty dictionary. *)
Abbreviation node_attr := (option kind).
Abbreviation edge_attr := (option relation).

(** [d.update(attr)]: the keys of [attr] overwrite those of [d]. *)
Definition update {A} (d attr : option A) : option A :=
  match attr with
  | Some a => Some a
  | None => d
  end.

Record Graph := mkGraph {
  g_node : gmap string node_attr;
  g_adj : gmap string (gmap string edge_attr)
}.

Definition empty_graph : Graph := mkGraph ∅ ∅.

(** [G._adj[n]]; the lookup is total here, the empty dictionary standing
    for a key that is not there. *)
Definition adj_of (G : Graph) (n : string) : gmap string edge_attr :=
  default ∅ (g_adj G !! n).

(** [G.add_node(n, **attr)]: a new node gets an empty adjacency and the
    attributes; an existing one has its attribute dictionary updated. *)
Definition add_node (G : Graph) (n : string) (attr : node_attr) : Graph :=
  match g_node G !! n with
  | None => mkGraph (<[n := update None attr]> (g_node G)) (<[n := ∅]> (g_adj G))
  | Some d => mkGraph (<[n := update d attr]> (g_node G)) (g_adj G)
  end.

(** [self._adj[u].get(v, {})] updated with [attr]: the dictionary
  [add_edge] stores on both sides. *)
Definition datadict (G : Graph) (u v : string) (attr : edge_attr) : edge_attr :=
update (default None (adj_of G u !! v)) attr.

(** The first lines of [add_edge]: an endpoint that is not a node yet is
    added with no attributes. *)
Definition ensure_node (G : Graph) (n : string) : Graph :=
  match g_node G !! n with
  | None => mkGraph (<[n := None]> (g_node G)) (<[n := ∅]> (g_adj G))
  | Some _ => G
  end.

(** [G.add_edge(u, v, **attr)]: the edge's dictionary (a fresh one when
    the edge is new) is updated with [attr] and stored under both
    [_adj[u][v]] and [_adj[v][u]], in this order. *)
Definition add_edge (G : Graph) (u v : string) (attr : edge_attr) : Graph :=
  let G1 := ensure_node G u in
  let G2 := ensure_node G1 v in
  let datadict := update (default None (adj_of G2 u !! v)) attr in
  let adj1 := <[u := <[v := datadict]> (adj_of G2 u)]> (g_adj G2) in
  let adj2 := <[v := <[u := datadict]> (default ∅ (adj1 !! v))]> adj1 in
  mkGraph (g_node G2) adj2.

(** [G.nodes()], in the order the map enumerates its keys. *)
Definition nodes (G : Graph) : list string := elements (dom (g_node G)).

(** [G.nodes[n]["type"]]. *)
Definition node_type (G : Graph) (n : string) : option kind :=
  mjoin (g_node G !! n).

(** [G.neighbors(n)]: the keys of [_adj[n]]. *)
Definition neighbors (G : Graph) (n : string) : list string :=
  elements (dom (adj_of G n)).

Definition has_edge (G : Graph) (u v : string) : Prop :=
  v ∈ dom (adj_of G u).

#[export] Instance has_edge_dec G u v : Decision (has_edge G u v).
Proof. unfold has_edge. apply _. Defined.

(** One item of [G.degree()]: [len(nbrs) + (n in nbrs)], a self-loop
    counting twice. *)
Definition degree (G : Graph) (n : string) : nat :=
  size (adj_of G n) + (if decide (n ∈ dom (adj_of G n)) then 1 else 0).

Definition number_of_nodes (G : Graph) : nat := size (g_node G).

(** [G.number_of_edges()] is [G.size()]: half the sum of the degrees. *)
Definition number_of_edges (G : Graph) : nat :=
  sum_list (degree G <$> nodes G) `div` 2.

(** [G.subgraph(nbunch)]: the nodes of [nbunch] that are nodes of [G],
    and the adjacency of [G] filtered to them on both sides. *)
Definition subgraph (G : Graph) (nbunch : gset string) : Graph :=
  let keep := nbunch ∩ dom (g_node G) in
  mkGraph
    (filter (λ kv, kv.1 ∈ keep) (g_node G))
    ((λ nbrs : gmap string edge_attr, filter (λ kv, kv.1 ∈ keep) nbrs)
       <$> filter (λ kv, kv.1 ∈ keep) (g_adj G)).

(** What the builders keep true of a graph: the two dictionaries have the
  same keys, and every neighbour is a node. *)
Definition wf (G : Graph) : Prop :=
dom (g_adj G) = dom (g_node G)
∧ ∀ u v, has_edge G u v → v ∈ dom (g_node G).

Definition self_loop_free (G : Graph) : Prop := ∀ u, ¬ has_edge G u u.

End Nx.

Import Nx.

(** ** The graph builders of the tabs *)

(** The loop shared by the three tabs and the three scripts: every row adds
    its two cells as nodes, tagged with the kind of their column, and the
    edge between them. *)
Definition build_step (k1 k2 : kind) (rel : edge_attr)
    (G : Graph) (row : string * string) : Graph :=
  let '(c1, c2) := row in
  let G := add_node G c1 (Some k1) in
  let G := add_node G c2 (Some k2) in
  add_edge G c1 c2 rel.

Definition build_graph (k1 k2 : kind) (rel : edge_attr)
    (rows : list (string * string)) : Graph :=
  foldl (build_step k1 k2 rel) empty_graph rows.

(** [app.py] tab 1, [most_ips.py], [most_domains.py]. *)
Definition tab1_graph := build_graph Kdomain Kip (Some HOSTED_ON).
(** [app.py] tab 2: the same rows, the edge without attribute. *)
Definition tab2_graph := build_graph Kdomain Kip None.
(** [app.py] tab 3. *)
Definition tab3_graph := build_graph Kdomain Ktarget None.
(** [most_targets.py]. *)
Definition most_targets_graph := build_graph Kdomain Ktarget (Some IS_IMPERSONATING).

(** The [add_node] calls of a build, in the order the loop makes them. *)
Definition insertions (k1 k2 : kind) (rows : list (string * string))
    : list (string * kind) :=
  rows ≫= (λ row, [(row.1, k1); (row.2, k2)]).

(** The kind a key is given by the first, and by the last, of these calls. *)
Definition first_kind (ins : list (string * kind)) (n : string) : option kind :=
  snd <$> list.head (filter (λ i, i.1 = n) ins).

Definition last_kind (ins : list (string * kind)) (n : string) : option kind :=
  snd <$> last (filter (λ i, i.1 = n) ins).

(** ** Hub selection, neighbourhood expansion, statistics *)

(** The two comparisons the comprehensions use. *)
Inductive cmp_mode := Strict | Inclusive.

Definition meets (mode : cmp_mode) (deg : nat) (min_degree : Z) : bool :=
  match mode with
  | Strict => bool_decide (Z.of_nat deg > min_degree)%Z
  | Inclusive => bool_decide (Z.of_nat deg >= min_degree)%Z
  end.

(** [[node for node, degree in G.degree()
      if degree ?? min_degree and G.nodes[node]["type"] == k]] *)
Definition high_degree (mode : cmp_mode) (k : kind) (G : Graph) (min_degree : Z)
    : list string :=
  filter (λ node, meets mode (degree G node) min_degree = true
                  ∧ node_type G node = Some k) (nodes G).

(** Tab 1: [degree > min_degree_ip]. *)
Definition high_degree_ips := high_degree Strict Kip.
(** Tab 2: [degree >= min_degree_domain]. *)
Definition high_degree_domains := high_degree Inclusive Kdomain.
(** Tab 3: [degree >= min_degree_target]. *)
Definition high_degree_targets := high_degree Inclusive Ktarget.

(** The two nested loops filling the set [nodes_to_draw]. *)
Definition nodes_to_draw (G : Graph) (hubs : list string) : gset string :=
  foldl (λ acc hub,
           foldl (λ acc neighbor, acc ∪ {[neighbor]})
                 (acc ∪ {[hub]}) (neighbors G hub))
        ∅ hubs.

Record stats := mkStats {
  hubs_shown : nat;
  nodes_shown : nat;
  edges_shown : nat
}.

(** What a tab computes from its graph and the number typed in: the
    subgraph and the three numbers written above the drawing. *)
Definition degree_filter (mode : cmp_mode) (k : kind) (G : Graph) (min_degree : Z)
    : Graph * stats :=
  let hubs := high_degree mode k G min_degree in
  let sub := subgraph G (nodes_to_draw G hubs) in
  (sub, mkStats (length hubs) (number_of_nodes sub) (number_of_edges sub)).

(** ** The record normaliser *)

(** One entry of a record's [details] list: a dictionary read with
    [.get("ip_address")]. *)
Record Detail := mkDetail {
  ip_address : option string
}.

(** [Timestamp]: the calendar fields the month key and label are made
    from. *)
Record Timestamp := mkTimestamp {
  year : Z;
  month : Z
}.

(** One record of [phishing_data.json]. [details] is [None] when the cell
    is not a list, [target] is [None] when the cell is missing. *)
Record Record_ := mkRecord {
  phish_id : Z;
  url : string;
  submission_time : Timestamp;
  details : option (list Detail);
  target : option string
}.

(** One row of the frame [load_data] returns. *)
Record Row := mkRow {
  r_phish_id : Z;
  r_url : string;
  r_details : option (list Detail);
  r_target : option string;
  r_ip : option string;
  r_domain : option string
}.

(** What [urllib.parse.urlparse] returns. *)
Record ParseResult := mkParseResult {
  scheme : string;
  netloc : string;
  path : string;
  params : string;
  query : string;
  fragment : string
}.

Definition extract_ip (details : option (list Detail)) : option string :=
  match details with
  | Some (d :: _) => ip_address d
  | _ => None
  end.

Module Pd.

(** [df.head(n)]. *)
Definition head {A} (n : nat) (df : list A) : list A := take n df.

(** [series.apply(f)] for an [f] that may raise: the first exception ends
    the pass. *)
Fixpoint apply {A B} (f : A -> Py.result B) (col : list A) : Py.result (list B) :=
  match col with
  | [] => Py.Ok []
  | x :: col' =>
      Py.bind (f x) (λ y, Py.bind (apply f col') (λ ys, Py.Ok (y :: ys)))
  end.

(** [drop_duplicates()]: the first of equal rows stays. *)
Fixpoint drop_duplicates {A} `{EqDecision A} (l : list A) : list A :=
  match l with
  | [] => []
  | x :: l' => x :: filter (λ y, y ≠ x) (drop_duplicates l')
  end.

(** A stable sort on a key, largest first. *)
Fixpoint insert_desc {A} (key : A -> Z) (x : A) (l : list A) : list A :=
  match l with
  | [] => [x]
  | y :: l' => if (key y <=? key x)%Z then x :: y :: l' else y :: insert_desc key x l'
  end.

Fixpoint sort_desc {A} (key : A -> Z) (l : list A) : list A :=
  match l with
  | [] => []
  | x :: l' => insert_desc key x (sort_desc key l')
  end.

(** What the sort returns: every line is followed by lines whose key is no
    larger. *)
Definition sorted_desc {A} (key : A -> Z) (l : list A) : Prop :=
  StronglySorted (λ a b, (key b ≤ key a)%Z) l.

(** The counting pass of [value_counts]: the missing cells dropped, one
    line per distinct value with the number of its cells, in the order the
    values first appear. *)
Definition counts (col : list (option string)) : list (string * nat) :=
  let values := omap id col in
  (λ v, (v, length (filter (λ w, w = v) values))) <$> drop_duplicates values.

(** [series.value_counts()]: the lines of the counting pass, most frequent
    first. Among equal counts the order is the one of the sort pandas
    runs; it is taken here to keep the order of first appearance. *)
Definition value_counts (col : list (option string)) : list (string * nat) :=
  sort_desc (λ kv, Z.of_nat kv.2) (counts col).

(** The scan behind [idxmax] and [max]: a later line replaces the best one
    only with a larger count, so the first of the largest stays. *)
Fixpoint argmax (best : string * nat) (l : list (string * nat)) : string * nat :=
  match l with
  | [] => best
  | x :: l' => if (best.2 <? x.2)%nat then argmax x l' else argmax best l'
  end.

Definition idxmax (s : list (string * nat)) : Py.result string :=
  match s with
  | [] => Py.Raise Py.ValueError
  | x :: l => Py.Ok (argmax x l).1
  end.

Definition max (s : list (string * nat)) : Py.result nat :=
  match s with
  | [] => Py.Raise Py.ValueError
  | x :: l => Py.Ok (argmax x l).2
  end.

End Pd.

Section normaliser.

(** The parser of the standard library, which is not part of the
    repository: a result, or an exception ([ValueError] on the URLs it
    rejects). *)
Variable urlparse : string -> Py.result ParseResult.

Definition extract_domain (url : string) : Py.result (option string) :=
  Py.try_except
    (Py.bind (urlparse url) (λ r, Py.Ok (Some (netloc r))))
    (Py.Ok None).

Definition normalise (rec : Record_) : Py.result Row :=
  Py.bind (extract_domain (url rec)) (λ dom,
    Py.Ok (mkRow (phish_id rec) (url rec) (details rec) (target rec)
                 (extract_ip (details rec)) dom)).

Definition load_data (file : list Record_) : Py.result (list Row) :=
  Pd.apply normalise (Pd.head 300 file).

End normaliser.

(** The columns [dropna] is asked about. *)
Inductive column := col_domain | col_ip | col_target.

Definition cell (c : column) (row : Row) : option string :=
  match c with
  | col_domain => r_domain row
  | col_ip => r_ip row
  | col_target => r_target row
  end.

(** [df.dropna(subset=cols)]: the rows with a value in each of [cols]. *)
Definition dropna (subset : list column) (df : list Row) : list Row :=
  filter (λ row, Forall (λ c, is_Some (cell c row)) subset) df.

(** The pairs of cells a builder loop reads from the rows left. *)
Definition cells (c1 c2 : column) (df : list Row) : list (string * string) :=
  omap (λ row, a ← cell c1 row; b ← cell c2 row; Some (a, b)) df.

Definition df1 (df : list Row) := dropna [col_domain; col_ip] df.
Definition df2 (df : list Row) := dropna [col_domain; col_ip] df.
Definition df3 (df : list Row) := dropna [col_domain; col_target] df.

Definition tab1 (df : list Row) (min_degree_ip : Z) : Graph * stats :=
  degree_filter Strict Kip (tab1_graph (cells col_domain col_ip (df1 df))) min_degree_ip.

Definition tab2 (df : list Row) (min_degree_domain : Z) : Graph * stats :=
  degree_filter Inclusive Kdomain (tab2_graph (cells col_domain col_ip (df2 df)))
                min_degree_domain.

Definition tab3 (df : list Row) (min_degree_target : Z) : Graph * stats :=
  degree_filter Inclusive Ktarget (tab3_graph (cells col_domain col_target (df3 df)))
                min_degree_target.

(** ** The monthly view *)

(** One row of the frame [load_data_with_time] returns. *)
Record TimeRow := mkTimeRow {
  t_target : option string;
  month_key : Z;
  month_label : string
}.

(** [to_period("M")]: the months since January 1970. *)
Definition to_period_M (t : Timestamp) : Z := ((year t - 1970) * 12 + (month t - 1))%Z.

Definition month_name (m : Z) : string :=
  match m with
  | 1 => "January" | 2 => "February" | 3 => "March" | 4 => "April"
  | 5 => "May" | 6 => "June" | 7 => "July" | 8 => "August"
  | 9 => "September" | 10 => "October" | 11 => "November" | _ => "December"
  end%Z.

(** [strftime("%B %Y")]. *)
Definition strftime_B_Y (t : Timestamp) : string :=
  month_name (month t) +:+ " " +:+ pretty (year t).

(** No [head] here: every record of the file gets a row. *)
Definition load_data_with_time (file : list Record_) : list TimeRow :=
  (λ rec, mkTimeRow (target rec)
                    (to_period_M (submission_time rec))
                    (strftime_B_Y (submission_time rec))) <$> file.

(** [df_time[["month_key", "month_label"]].drop_duplicates()
      .sort_values("month_key", ascending=False)] *)
Definition month_lookup (df_time : list TimeRow) : list (Z * string) :=
  Pd.sort_desc fst (Pd.drop_duplicates ((λ r, (month_key r, month_label r)) <$> df_time)).

(** [month_lookup[month_lookup["month_label"] == selected_label]["month_key"].iloc[0]] *)
Definition selected_key (lookup : list (Z * string)) (selected_label : string)
    : Py.result Z :=
  match filter (λ kl, kl.2 = selected_label) lookup with
  | [] => Py.Raise Py.IndexError
  | kl :: _ => Py.Ok kl.1
  end.

Definition df_month (df_time : list TimeRow) (key : Z) : list TimeRow :=
  filter (λ r, month_key r = key) df_time.

Definition target_counts (df_time : list TimeRow) (key : Z) : list (string * nat) :=
  Pd.value_counts (t_target <$> df_month df_time key).

(** [target_counts[target_counts.index != "Other"]] *)
Definition non_other (counts : list (string * nat)) : list (string * nat) :=
  filter (λ kv, kv.1 ≠ "Other") counts.

(** The line written above the drawing of tab 4. *)
Inductive headline :=
| MostTargeted (name : string) (n : nat)
| NoNamedTargets.

Definition most_targeted (counts : list (string * nat)) : Py.result headline :=
  let non_other := non_other counts in
  if bool_decide (non_other = []) then Py.Ok NoNamedTargets
  else Py.bind (Pd.idxmax non_other) (λ name,
       Py.bind (Pd.max non_other) (λ n, Py.Ok (MostTargeted name n))).

Definition tab4 (file : list Record_) (selected_label : string) : Py.result headline :=
  let df_time := load_data_with_time file in
  Py.bind (selected_key (month_lookup df_time) selected_label) (λ key,
    most_targeted (target_counts df_time key)).

(** ** The scenarios of the specification *)

Definition ex_rows : list (string * string) :=
  [("d1", "ip1"); ("d1", "ip2"); ("d2", "ip1"); ("d3", "ip1")].

(** A report whose URL names its host by address: the domain cell and the
    ip cell of the row hold the same text. *)
Definition ip_literal_rows : list (string * string) :=
  [("203.0.113.7", "203.0.113.7")].

(** One report on a URL that names its host by address, and a later row
    of a site hosted on that address. *)
Definition reused_address_rows : list (string * string) :=
  [("203.0.113.7", "198.51.100.2"); ("shop.example", "203.0.113.7")].

(** A file of two reports, of March and of May 2024. *)
Definition ex_file : list Record_ :=
  [ mkRecord 1 "http://a.example/login" (mkTimestamp 2024 3) None (Some "Other");
    mkRecord 2 "http://b.example/" (mkTimestamp 2024 5) None (Some "Apple") ].

(** ** The drawings and the tables of the scripts *)

(** The colour names passed to [nx.draw]. *)
Inductive colour := tomato | skyblue | gray | lightgray.

(** [G.nodes[node]["type"]] as the loops read it: a node without the
    attribute is a [KeyError]. *)
Definition type_of (G : Graph) (node : string) : Py.result kind :=
  match node_type G node with
  | Some k => Py.Ok k
  | None => Py.Raise Py.KeyError
  end.

(** The colour loop of a tab: the kind of the tab's hubs in tomato, the
    domains in sky blue, anything else in gray. Tabs 1 and 2 run it with
    ["ip"], tab 3 with ["target"]. *)
Definition node_colors (first : kind) (sub : Graph) : Py.result (list colour) :=
  Pd.apply
    (λ node,
       Py.bind (type_of sub node) (λ t,
         Py.Ok (if decide (t = first) then tomato
                else if decide (t = Kdomain) then skyblue
                else gray)))
    (nodes sub).

Definition node_colors_ip := node_colors Kip.
Definition node_colors_domain := node_colors Kip.
Definition node_colors_targets := node_colors Ktarget.

(** [dict(G.degree())] of the scripts, as the list of its items. *)
Definition degree_dict (G : Graph) : list (string * nat) :=
  (λ node, (node, degree G node)) <$> nodes G.

(** The loop filling [ip_rows], [domain_rows] or [target_rows]: the nodes
    of one type with their degree. *)
Definition kind_rows (k : kind) (G : Graph) : Py.result (list (string * nat)) :=
  Py.bind
    (Pd.apply (λ node, Py.bind (type_of G node) (λ t, Py.Ok (node, t))) (nodes G))
    (λ typed,
       Py.Ok ((λ nt : string * kind, (nt.1, degree G nt.1))
                <$> filter (λ nt : string * kind, nt.2 = k) typed)).

(** [pd.DataFrame(rows).sort_values(by=..., ascending=False)]: a frame
    made from no row has no column to sort by. *)
Definition sort_values_desc (rows : list (string * nat))
    : Py.result (list (string * nat)) :=
  match rows with
  | [] => Py.Raise Py.KeyError
  | _ => Py.Ok (Pd.sort_desc (λ r, Z.of_nat r.2) rows)
  end.

(** The table a script prints: [ip_df.head(10)] and its two siblings. *)
Definition top_table (k : kind) (G : Graph) : Py.result (list (string * nat)) :=
  Py.bind (kind_rows k G) (λ rows,
    Py.bind (sort_values_desc rows) (λ df, Py.Ok (Pd.head 10 df))).

(** The graph of tab 4: one node per line of the frequency table, with
    the attribute [count]. *)
Definition count_graph (target_counts : list (string * nat)) : gmap string nat :=
  foldl (λ G tc, <[tc.1 := tc.2]> G) ∅ target_counts.

(** [node_sizes] and [node_colors] of tab 4, each node with its size and
    colour. *)
Definition count_drawing (G : gmap string nat) : list (string * (nat * colour)) :=
  (λ nc : string * nat,
     (nc.1, (nc.2 * 20, if decide (nc.1 = "Other") then lightgray else skyblue)))
    <$> map_to_list G.

(** The values a node is joined to by the rows of a table. *)
Definition partners (rows : list (string * string)) (n : string) : gset string :=
  list_to_set (rows ≫= λ row,
    (if decide (row.1 = n) then [row.2] else [])
    ++ (if decide (row.2 = n) then [row.1] else [])).

(** A timestamp of the calendar. *)
Definition valid_month (t : Timestamp) : Prop := (1 ≤ month t ≤ 12)%Z.

(** ** The network location [urllib.parse] computes *)

(** [urlsplit] of the standard library (CPython 3.11 and later), as far as
    the field [netloc] goes, the only one the scripts read. A URL is
    handled as the list of its characters. Two validations of the library
    are left out: the syntax of a host written between brackets, and the
    normalisation check of a network location with characters outside
    ASCII; both can only raise, and only on such network locations. *)
Module Url.

Definition code (c : ascii) : nat := nat_of_ascii c.

(** The characters [lstrip] removes: the C0 controls and the space. *)
Definition c0_control_or_space (c : ascii) : bool := bool_decide (code c ≤ 32).

(** The characters removed wherever they are: tab, line feed, carriage
    return. *)
Definition unsafe_url_byte (c : ascii) : bool :=
  bool_decide (code c = 9 ∨ code c = 10 ∨ code c = 13).

Definition ascii_alpha (c : ascii) : bool :=
  bool_decide (65 ≤ code c ≤ 90 ∨ 97 ≤ code c ≤ 122).

(** [scheme_chars]: the letters, the digits and ["+-."]. *)
Definition scheme_char (c : ascii) : bool :=
  ascii_alpha c
  || bool_decide (48 ≤ code c ≤ 57)
  || bool_decide (code c = 43 ∨ code c = 45 ∨ code c = 46).

Fixpoint lstrip (url : list ascii) : list ascii :=
  match url with
  | c :: url' => if c0_control_or_space c then lstrip url' else url
  | [] => []
  end.

(** [url.find(c)]. *)
Fixpoint find (c : ascii) (url : list ascii) : option nat :=
  match url with
  | [] => None
  | d :: url' => if decide (d = c) then Some 0 else S <$> find c url'
  end.

(** The scheme, when the URL starts with one, is cut off with its colon. *)
Definition after_scheme (url : list ascii) : list ascii :=
  match find ":" url, url with
  | Some (S i), c :: _ =>
      if ascii_alpha c && forallb scheme_char (take (S i) url)
      then drop (S (S i)) url
      else url
  | _, _ => url
  end.

Definition delimiter (c : ascii) : bool :=
  bool_decide (c = "/"%char ∨ c = "?"%char ∨ c = "#"%char).

(** [_splitnetloc(url, 2)]: from the third character to the first of
    ["/?#"]. *)
Fixpoint until_delimiter (url : list ascii) : list ascii :=
  match url with
  | [] => []
  | c :: url' => if delimiter c then [] else c :: until_delimiter url'
  end.

Definition netloc_of (url : string) : Py.result string :=
  let url := lstrip (String.list_ascii_of_string url) in
  let url := filter (λ c, unsafe_url_byte c = false) url in
  let url := after_scheme url in
  if bool_decide (take 2 url = ["/"%char; "/"%char]) then
    let netloc := until_delimiter (drop 2 url) in
    let opening := bool_decide ("["%char ∈ netloc) in
    let closing := bool_decide ("]"%char ∈ netloc) in
    if xorb opening closing then Py.Raise Py.ValueError
    else Py.Ok (String.string_of_list_ascii netloc)
  else Py.Ok "".

(** [urlparse], with the fields the scripts do not read left empty. *)
Definition urlparse (url : string) : Py.result ParseResult :=
  Py.bind (netloc_of url) (λ netloc, Py.Ok (mkParseResult "" netloc "" "" "" "")).

End Url.

(** A report whose URL has no scheme, hosted on a known address. *)
Definition schemeless_file : list Record_ :=
  [ mkRecord 7 "www.secure-login.example/signin" (mkTimestamp 2024 5)
             (Some [mkDetail (Some "203.0.113.7")]) (Some "Other") ].

(** * Properties *)

(** ** The graph operations *)

Section graph_ops.

Implicit Types (G : Graph) (n u v x y : string).

Lemma adj_of_empty n : adj_of empty_graph n = ∅.
Proof. unfold adj_of. simpl. by rewrite lookup_empty. Qed.

Lemma adj_of_Some G n m : g_adj G !! n = Some m → adj_of G n = m.
Proof. unfold adj_of. by intros ->. Qed.

Lemma adj_of_None G n : g_adj G !! n = None → adj_of G n = ∅.
Proof. unfold adj_of. by intros ->. Qed.

Lemma has_edge_adj_dom G u v : has_edge G u v → u ∈ dom (g_adj G).
Proof.
  unfold has_edge, adj_of. intros H. apply elem_of_dom.
  destruct (g_adj G !! u); [eauto |]. simpl in H. set_solver.
Qed.

Lemma wf_empty : wf empty_graph.
Proof.
  split; [by simpl; rewrite !dom_empty_L |].
  intros u v H. unfold has_edge in H. rewrite adj_of_empty in H. set_solver.
Qed.

Lemma ensure_node_id G n : n ∈ dom (g_node G) → ensure_node G n = G.
Proof.
  intros [d Hd]%elem_of_dom. unfold ensure_node. by rewrite Hd.
Qed.

Lemma add_node_dom G n a :
  dom (g_node (add_node G n a)) = {[n]} ∪ dom (g_node G).
Proof.
  unfold add_node. destruct (g_node G !! n); simpl; by rewrite dom_insert_L.
Qed.

Lemma add_node_lookup G n a x :
  g_node (add_node G n a) !! x
  = if decide (x = n) then Some (update (mjoin (g_node G !! n)) a)
    else g_node G !! x.
Proof.
  unfold add_node. destruct (g_node G !! n) eqn:E; simpl;
    case_decide; simplify_map_eq; done.
Qed.

Lemma add_node_adj_dom G n a :
  dom (g_adj G) = dom (g_node G) →
  dom (g_adj (add_node G n a)) = dom (g_node (add_node G n a)).
Proof.
  intros Hd. rewrite add_node_dom. unfold add_node.
  destruct (g_node G !! n) eqn:E; simpl.
  - rewrite Hd. apply (elem_of_dom_2 (g_node G)) in E. set_solver.
  - rewrite dom_insert_L. by rewrite Hd.
Qed.

Lemma add_node_adj_of G n a x :
  dom (g_adj G) = dom (g_node G) →
  adj_of (add_node G n a) x = adj_of G x.
Proof.
  intros Hd. unfold add_node. destruct (g_node G !! n) eqn:E; [done |].
  unfold adj_of. simpl. destruct (decide (x = n)) as [-> | Hne].
  - rewrite lookup_insert_eq. simpl.
    assert (g_adj G !! n = None) as ->; [| done].
    apply not_elem_of_dom. rewrite Hd. by apply not_elem_of_dom.
  - by rewrite lookup_insert_ne.
Qed.

Lemma add_node_wf G n a : wf G → wf (add_node G n a).
Proof.
  intros [Hd Hc]. split; [by apply add_node_adj_dom |].
  intros u v. unfold has_edge. rewrite add_node_adj_of by done.
  rewrite add_node_dom. intros H. apply Hc in H. set_solver.
Qed.

Lemma add_edge_node G u v attr :
  u ∈ dom (g_node G) → v ∈ dom (g_node G) →
  g_node (add_edge G u v attr) = g_node G.
Proof.
  intros Hu Hv. unfold add_edge. simpl.
  rewrite (ensure_node_id G u) by done. by rewrite ensure_node_id.
Qed.

Lemma add_edge_adj_lookup G u v attr x :
  u ∈ dom (g_node G) → v ∈ dom (g_node G) →
  g_adj (add_edge G u v attr) !! x
  = if decide (x = v) then
      Some (<[u := datadict G u v attr]>
              (if decide (u = v) then <[v := datadict G u v attr]> (adj_of G u)
               else adj_of G v))
    else if decide (x = u) then Some (<[v := datadict G u v attr]> (adj_of G u))
    else g_adj G !! x.
Proof.
  intros Hu Hv. unfold add_edge. simpl.
  rewrite (ensure_node_id G u) by done. rewrite ensure_node_id by done.
  destruct (decide (x = v)) as [-> | Hxv].
  - rewrite lookup_insert_eq. f_equal. f_equal.
    destruct (decide (u = v)) as [-> | Huv].
    + by rewrite lookup_insert_eq.
    + by rewrite lookup_insert_ne.
  - rewrite lookup_insert_ne by done.
    destruct (decide (x = u)) as [-> | Hxu].
    + by rewrite lookup_insert_eq.
    + by rewrite lookup_insert_ne.
Qed.

Lemma add_edge_adj_dom G u v attr :
  u ∈ dom (g_node G) → v ∈ dom (g_node G) →
  dom (g_adj G) = dom (g_node G) →
  dom (g_adj (add_edge G u v attr)) = dom (g_node (add_edge G u v attr)).
Proof.
  intros Hu Hv Hd. rewrite add_edge_node by done.
  apply set_eq. intros x. rewrite <- Hd. rewrite !elem_of_dom.
  rewrite add_edge_adj_lookup by done.
  repeat case_decide; subst; rewrite <- ?elem_of_dom, ?Hd; naive_solver.
Qed.

(** The cell [_adj[x][y]] after [add_edge]. *)
Lemma add_edge_adj_of_lookup G u v attr x y :
  u ∈ dom (g_node G) → v ∈ dom (g_node G) →
  adj_of (add_edge G u v attr) x !! y
  = if decide ((x = u ∧ y = v) ∨ (x = v ∧ y = u))
    then Some (datadict G u v attr)
    else adj_of G x !! y.
Proof.
  intros Hu Hv. unfold adj_of at 1. rewrite add_edge_adj_lookup by done.
  destruct (decide (x = v)) as [-> | Hxv]; simpl.
  - destruct (decide (u = v)) as [-> | Huv].
    + destruct (decide (y = v)) as [-> | Hyv].
      * rewrite lookup_insert_eq. by rewrite decide_True by auto.
      * rewrite !lookup_insert_ne by done. rewrite decide_False by naive_solver. done.
    + destruct (decide (y = u)) as [-> | Hyu].
      * rewrite lookup_insert_eq. by rewrite decide_True by auto.
      * rewrite lookup_insert_ne by done. rewrite decide_False by naive_solver. done.
  - destruct (decide (x = u)) as [-> | Hxu]; simpl.
    + destruct (decide (y = v)) as [-> | Hyv].
      * rewrite lookup_insert_eq. by rewrite decide_True by auto.
      * rewrite lookup_insert_ne by done. rewrite decide_False by naive_solver. done.
    + rewrite decide_False by naive_solver. done.
Qed.

Lemma has_edge_lookup G u v : has_edge G u v ↔ is_Some (adj_of G u !! v).
Proof. unfold has_edge. apply elem_of_dom. Qed.

Lemma add_edge_has_edge G u v attr x y :
  u ∈ dom (g_node G) → v ∈ dom (g_node G) →
  has_edge (add_edge G u v attr) x y
  ↔ (x = u ∧ y = v) ∨ (x = v ∧ y = u) ∨ has_edge G x y.
Proof.
  intros Hu Hv. rewrite !has_edge_lookup, add_edge_adj_of_lookup by done.
  case_decide; [naive_solver |]. naive_solver.
Qed.

Lemma add_edge_wf G u v attr :
  u ∈ dom (g_node G) → v ∈ dom (g_node G) →
  wf G → wf (add_edge G u v attr).
Proof.
  intros Hu Hv [Hd Hc]. split; [by apply add_edge_adj_dom |].
  intros x y. rewrite add_edge_has_edge, add_edge_node by done.
  intros [[-> ->] | [[-> ->] | H]]; eauto.
Qed.

End graph_ops.

(** ** The builders *)

Section builders.

Context (k1 k2 : kind) (rel : edge_attr).
Implicit Types (G : Graph) (rows : list (string * string)).

Lemma build_graph_snoc rows row :
  build_graph k1 k2 rel (rows ++ [row])
  = build_step k1 k2 rel (build_graph k1 k2 rel rows) row.
Proof. unfold build_graph. by rewrite foldl_app. Qed.

Lemma build_step_node_dom G a b :
  dom (g_node (build_step k1 k2 rel G (a, b))) = {[a; b]} ∪ dom (g_node G).
Proof.
  unfold build_step. rewrite add_edge_node.
  - rewrite !add_node_dom. set_solver.
  - rewrite !add_node_dom. set_solver.
  - rewrite !add_node_dom. set_solver.
Qed.

Lemma build_step_node_lookup G a b x :
  g_node (build_step k1 k2 rel G (a, b)) !! x
  = if decide (x = b) then Some (Some k2)
    else if decide (x = a) then Some (Some k1)
    else g_node G !! x.
Proof.
  unfold build_step. rewrite add_edge_node.
  - rewrite !add_node_lookup. by repeat case_decide.
  - rewrite !add_node_dom. set_solver.
  - rewrite !add_node_dom. set_solver.
Qed.

Lemma build_step_wf G row : wf G → wf (build_step k1 k2 rel G row).
Proof.
  destruct row as [a b]. intros HG. unfold build_step.
  apply add_edge_wf.
  - rewrite !add_node_dom. set_solver.
  - rewrite !add_node_dom. set_solver.
  - by do 2 apply add_node_wf.
Qed.

Lemma build_step_adj_of_lookup G a b x y :
  wf G →
  adj_of (build_step k1 k2 rel G (a, b)) x !! y
  = if decide ((x = a ∧ y = b) ∨ (x = b ∧ y = a))
    then Some (update (default None (adj_of G a !! b)) rel)
    else adj_of G x !! y.
Proof.
  intros HG. unfold build_step.
  assert (wf (add_node G a (Some k1))) as HG1 by by apply add_node_wf.
  rewrite add_edge_adj_of_lookup.
  - unfold datadict. rewrite !(add_node_adj_of (add_node _ _ _)) by apply HG1.
    by rewrite !add_node_adj_of by apply HG.
  - rewrite !add_node_dom. set_solver.
  - rewrite !add_node_dom. set_solver.
Qed.

Lemma build_graph_wf rows : wf (build_graph k1 k2 rel rows).
Proof.
  induction rows as [| row rows IH] using rev_ind; [apply wf_empty |].
  rewrite build_graph_snoc. by apply build_step_wf.
Qed.

(** The nodes are the cells of the two columns. *)
Lemma build_graph_node_dom rows n :
  n ∈ dom (g_node (build_graph k1 k2 rel rows))
  ↔ ∃ row, row ∈ rows ∧ (n = row.1 ∨ n = row.2).
Proof.
  induction rows as [| [a b] rows IH] using rev_ind.
  - simpl. rewrite dom_empty_L. split; [set_solver |].
    intros (row & H & _). by apply elem_of_nil in H.
  - rewrite build_graph_snoc, build_step_node_dom.
    rewrite elem_of_union, IH. split.
    + intros [H | (row & H & Hn)].
      * exists (a, b). split; [set_solver |]. simpl. set_solver.
      * exists row. split; [set_solver | done].
    + intros (row & [H | H]%elem_of_app & Hn).
      * right. eauto.
      * left. apply list_elem_of_singleton in H as ->. simpl in Hn. set_solver.
Qed.

(** The edges are the rows, read in both directions, each carrying the
    attribute the builder passes. *)
Lemma build_graph_adj_of_lookup rows x y :
  adj_of (build_graph k1 k2 rel rows) x !! y
  = if decide ((x, y) ∈ rows ∨ (y, x) ∈ rows) then Some rel else None.
Proof.
  revert x y. induction rows as [| [a b] rows IH] using rev_ind; intros x y.
  - rewrite adj_of_empty, lookup_empty. rewrite decide_False; [done |].
    intros [H | H]; by apply elem_of_nil in H.
  - rewrite build_graph_snoc, build_step_adj_of_lookup by apply build_graph_wf.
    rewrite !IH. destruct (decide ((x = a ∧ y = b) ∨ (x = b ∧ y = a))) as [Hn | Hn].
    + assert ((x, y) ∈ rows ++ [(a, b)] ∨ (y, x) ∈ rows ++ [(a, b)]) as Hin
        by (destruct Hn as [[-> ->] | [-> ->]]; set_solver).
      rewrite (decide_True _ _ Hin).
      f_equal. case_decide; simpl; by destruct rel.
    + case_decide as H1.
      * rewrite decide_True; [done |]. set_solver.
      * rewrite decide_False; [done |].
        intros [[H | H]%elem_of_app | [H | H]%elem_of_app]; try tauto;
          apply list_elem_of_singleton in H; simplify_eq; tauto.
Qed.

Lemma build_graph_has_edge rows x y :
  has_edge (build_graph k1 k2 rel rows) x y ↔ (x, y) ∈ rows ∨ (y, x) ∈ rows.
Proof.
  rewrite has_edge_lookup, build_graph_adj_of_lookup.
  case_decide as H; split; intros H'; try done; by destruct H'.
Qed.

Lemma insertions_snoc rows a b :
  insertions k1 k2 (rows ++ [(a, b)]) = insertions k1 k2 rows ++ [(a, k1); (b, k2)].
Proof. unfold insertions. rewrite bind_app. simpl. done. Qed.

(** The attribute of a node is the one of the last [add_node] on its key. *)
Lemma build_graph_node_lookup rows n :
  g_node (build_graph k1 k2 rel rows) !! n
  = Some <$> last_kind (insertions k1 k2 rows) n.
Proof.
  induction rows as [| [a b] rows IH] using rev_ind; [done |].
  rewrite build_graph_snoc, build_step_node_lookup, insertions_snoc.
  unfold last_kind in *. rewrite filter_app.
  rewrite !filter_cons, filter_nil. simpl.
  destruct (decide (n = b)) as [-> | Hb].
  - rewrite (decide_True (P := b = b)) by done.
    case_decide; by rewrite last_app.
  - rewrite (decide_False (P := b = n)) by done.
    destruct (decide (n = a)) as [-> | Ha].
    + rewrite (decide_True (P := a = a)) by done. by rewrite last_app.
    + rewrite (decide_False (P := a = n)) by done. by rewrite app_nil_r.
Qed.

Lemma build_graph_node_type rows n :
  node_type (build_graph k1 k2 rel rows) n = last_kind (insertions k1 k2 rows) n.
Proof.
  unfold node_type. rewrite build_graph_node_lookup.
  by destruct (last_kind _ _).
Qed.

End builders.

(** ** Hubs, working set, induced subgraph *)

Section degree_filter_facts.

Implicit Types (G : Graph) (n u v h : string) (X Y : gset string) (t : Z).

Lemma elem_of_nodes G n : n ∈ nodes G ↔ n ∈ dom (g_node G).
Proof. unfold nodes. apply elem_of_elements. Qed.

Lemma elem_of_neighbors G u v : v ∈ neighbors G u ↔ has_edge G u v.
Proof. unfold neighbors, has_edge. apply elem_of_elements. Qed.

Lemma meets_Strict d t : meets Strict d t = true ↔ (Z.of_nat d > t)%Z.
Proof. simpl. apply bool_decide_eq_true. Qed.

Lemma meets_Inclusive d t : meets Inclusive d t = true ↔ (Z.of_nat d >= t)%Z.
Proof. simpl. apply bool_decide_eq_true. Qed.

Lemma meets_antitone mode d t1 t2 :
  (t1 ≤ t2)%Z → meets mode d t2 = true → meets mode d t1 = true.
Proof.
  intros Ht. destruct mode; simpl; rewrite !bool_decide_eq_true; lia.
Qed.

Lemma elem_of_high_degree mode k G t n :
  n ∈ high_degree mode k G t
  ↔ n ∈ dom (g_node G) ∧ meets mode (degree G n) t = true ∧ node_type G n = Some k.
Proof.
  unfold high_degree. rewrite list_elem_of_filter, elem_of_nodes. tauto.
Qed.

Lemma NoDup_high_degree mode k G t : NoDup (high_degree mode k G t).
Proof. unfold high_degree, nodes. apply NoDup_filter, NoDup_elements. Qed.

Lemma elem_of_add_neighbors (acc : gset string) (l : list string) n :
  n ∈ foldl (λ acc neighbor, acc ∪ {[neighbor]}) acc l ↔ n ∈ acc ∨ n ∈ l.
Proof.
  revert acc. induction l as [| x l IH]; intros acc; simpl.
  - rewrite elem_of_nil. tauto.
  - rewrite IH, elem_of_cons. set_solver.
Qed.

Lemma elem_of_nodes_to_draw_acc G (acc : gset string) hubs n :
  n ∈ foldl (λ acc hub,
               foldl (λ acc neighbor, acc ∪ {[neighbor]})
                     (acc ∪ {[hub]}) (neighbors G hub)) acc hubs
  ↔ n ∈ acc ∨ n ∈ hubs ∨ ∃ h, h ∈ hubs ∧ has_edge G h n.
Proof.
  revert acc. induction hubs as [| x hubs IH]; intros acc; simpl.
  - rewrite elem_of_nil. split; [tauto |].
    intros [? | [[] | (h & Hh & _)]]; [done |]. by apply elem_of_nil in Hh.
  - rewrite IH, elem_of_add_neighbors, elem_of_neighbors, elem_of_cons.
    rewrite elem_of_union, elem_of_singleton. split.
    + intros [[[? | ->] | ?] | [? | (h & Hh & He)]]; eauto 6.
      * right. right. exists x. split; [left | done].
      * right. right. exists h. split; [by right | done].
    + intros [? | [[-> | ?] | (h & [-> | Hh]%elem_of_cons & He)]]; eauto 8.
Qed.

(** The working set: the hubs and what is one edge away from a hub. *)
Lemma elem_of_nodes_to_draw G hubs n :
  n ∈ nodes_to_draw G hubs ↔ n ∈ hubs ∨ ∃ h, h ∈ hubs ∧ has_edge G h n.
Proof.
  unfold nodes_to_draw. rewrite elem_of_nodes_to_draw_acc. set_solver.
Qed.

Lemma subgraph_node_dom G X :
  dom (g_node (subgraph G X)) = X ∩ dom (g_node G).
Proof.
  apply set_eq. intros n. simpl.
  rewrite elem_of_dom, elem_of_intersection, elem_of_dom. split.
  - intros [d Hd]. apply map_lookup_filter_Some in Hd as [Hd Hk].
    simpl in Hk. split; [set_solver | eauto].
  - intros [Hn [d Hd]]. exists d. apply map_lookup_filter_Some.
    split; [done |]. simpl. apply elem_of_intersection.
    split; [done |]. apply elem_of_dom. eauto.
Qed.

Lemma adj_of_subgraph G X u :
  adj_of (subgraph G X) u
  = if decide (u ∈ X ∩ dom (g_node G))
    then filter (λ kv, kv.1 ∈ X ∩ dom (g_node G)) (adj_of G u)
    else ∅.
Proof.
  unfold adj_of. simpl. rewrite lookup_fmap, map_lookup_filter.
  destruct (g_adj G !! u) as [m |] eqn:E; simpl.
  - destruct (decide (u ∈ X ∩ dom (g_node G))) as [Hu | Hu].
    + by rewrite option_guard_True.
    + by rewrite option_guard_False.
  - case_decide; [by rewrite map_filter_empty | done].
Qed.

Lemma subgraph_has_edge G X u v :
  has_edge (subgraph G X) u v
  ↔ has_edge G u v ∧ u ∈ X ∩ dom (g_node G) ∧ v ∈ X ∩ dom (g_node G).
Proof.
  rewrite !has_edge_lookup, adj_of_subgraph. case_decide as Hu.
  - unfold is_Some. setoid_rewrite map_lookup_filter_Some. simpl. naive_solver.
  - rewrite lookup_empty. split; [by intros [] | tauto].
Qed.

Lemma number_of_nodes_subgraph G X :
  number_of_nodes (subgraph G X) = size (X ∩ dom (g_node G)).
Proof.
  unfold number_of_nodes. rewrite <- subgraph_node_dom. symmetry. apply size_dom.
Qed.

(** In a well-formed graph the working set consists of nodes. *)
Lemma nodes_to_draw_nodes mode k G t :
  wf G → nodes_to_draw G (high_degree mode k G t) ⊆ dom (g_node G).
Proof.
  intros [Hd Hc] n. rewrite elem_of_nodes_to_draw.
  intros [H | (h & Hh & He)].
  - by apply elem_of_high_degree in H as [? _].
  - by apply Hc in He.
Qed.

(** Sums over lists of nodes. *)
Lemma sum_list_fmap_submseteq (f : string → nat) (l1 l2 : list string) :
  l1 ⊆+ l2 → sum_list (f <$> l1) ≤ sum_list (f <$> l2).
Proof. induction 1; csimpl in *; lia. Qed.

Lemma sum_list_fmap_le (f g : string → nat) (l : list string) :
  (∀ x, f x ≤ g x) → sum_list (f <$> l) ≤ sum_list (g <$> l).
Proof.
  intros Hfg. induction l as [| x l IH]; csimpl; [done |].
  specialize (Hfg x). lia.
Qed.

Lemma length_filter_impl {A} (P Q : A → Prop)
    `{!∀ x, Decision (P x)} `{!∀ x, Decision (Q x)} (l : list A) :
  (∀ x, P x → Q x) → length (filter P l) ≤ length (filter Q l).
Proof.
  intros HPQ. induction l as [| x l IH]; simpl; [done |].
  rewrite !filter_cons. destruct (decide (P x)) as [HP | HP].
  - rewrite decide_True by auto. simpl. lia.
  - case_decide; simpl; lia.
Qed.

Lemma subgraph_degree_mono G X Y n :
  X ⊆ Y → degree (subgraph G X) n ≤ degree (subgraph G Y) n.
Proof.
  intros HXY. unfold degree.
  assert (adj_of (subgraph G X) n ⊆ adj_of (subgraph G Y) n) as Hsub.
  { rewrite !adj_of_subgraph. case_decide as HnX.
    - rewrite decide_True by set_solver.
      apply map_filter_subseteq_ext. intros i d _. simpl. set_solver.
    - apply map_empty_subseteq. }
  apply map_subseteq_size in Hsub.
  destruct (decide (n ∈ dom (adj_of (subgraph G X) n))) as [Hl | Hl].
  - rewrite decide_True; [lia |].
    fold (has_edge (subgraph G Y) n n). fold (has_edge (subgraph G X) n n) in Hl.
    rewrite subgraph_has_edge in *. set_solver.
  - case_decide; lia.
Qed.

Lemma number_of_edges_subgraph_mono G X Y :
  X ⊆ Y → number_of_edges (subgraph G X) ≤ number_of_edges (subgraph G Y).
Proof.
  intros HXY. unfold number_of_edges. apply Nat.Div0.div_le_mono.
  etrans.
  - apply sum_list_fmap_le. intros n. by apply subgraph_degree_mono.
  - apply sum_list_fmap_submseteq. unfold nodes.
    apply elements_submseteq. rewrite !subgraph_node_dom. set_solver.
Qed.

Lemma nodes_to_draw_mono G hubs1 hubs2 :
  hubs2 ⊆ hubs1 → nodes_to_draw G hubs2 ⊆ nodes_to_draw G hubs1.
Proof.
  intros Hh n. rewrite !elem_of_nodes_to_draw.
  intros [H | (h & H & He)]; [left | right; exists h]; set_solver.
Qed.

Lemma high_degree_antitone mode k G t1 t2 :
  (t1 ≤ t2)%Z → high_degree mode k G t2 ⊆ high_degree mode k G t1.
Proof.
  intros Ht n. rewrite !elem_of_high_degree.
  intros (? & Hm & ?). eauto using meets_antitone.
Qed.

End degree_filter_facts.

(** ** Main results: the builders and the degree filter *)

(** C1. For every built graph, every kind and every threshold, in either
    comparison mode: the working set is the hubs and the direct neighbours
    of hubs; the nodes of the induced subgraph are exactly the working
    set, so each is a hub or one edge away from a hub, and a node that is
    neither is left out however it is connected otherwise; the edges of
    the induced subgraph are exactly the edges of the full graph with
    both endpoints in the working set. *)
Theorem closure_soundness k1 k2 rel rows mode k t :
  let G := build_graph k1 k2 rel rows in
  let hubs := high_degree mode k G t in
  let working := nodes_to_draw G hubs in
  let sub := (degree_filter mode k G t).1 in
  (∀ n, n ∈ working ↔ n ∈ hubs ∨ ∃ h, h ∈ hubs ∧ n ∈ neighbors G h)
  ∧ (∀ n, n ∈ nodes sub ↔ n ∈ working)
  ∧ (∀ n, n ∈ nodes sub → n ∈ hubs ∨ ∃ h, h ∈ hubs ∧ n ∈ neighbors G h)
  ∧ (∀ n, n ∉ hubs → (∀ h, h ∈ hubs → n ∉ neighbors G h) → n ∉ nodes sub)
  ∧ (∀ u v, has_edge sub u v ↔ has_edge G u v ∧ u ∈ working ∧ v ∈ working).
Proof.
  intros G hubs working sub.
  assert (wf G) as HG by apply build_graph_wf.
  assert (working ⊆ dom (g_node G)) as Hw by by apply nodes_to_draw_nodes.
  assert (∀ n, n ∈ working ↔ n ∈ hubs ∨ ∃ h, h ∈ hubs ∧ n ∈ neighbors G h) as H1.
  { intros n. unfold working. rewrite elem_of_nodes_to_draw.
    by setoid_rewrite elem_of_neighbors. }
  assert (∀ n, n ∈ nodes sub ↔ n ∈ working) as H2.
  { intros n. rewrite elem_of_nodes. unfold sub, degree_filter. cbn [fst].
    rewrite subgraph_node_dom. set_solver. }
  split_and!; [done | done | | |].
  - intros n Hn. by apply H1, H2.
  - intros n Hh Hnb Hn. apply H2, H1 in Hn as [? | (h & ? & ?)]; [done |].
    by eapply Hnb.
  - intros u v. unfold sub, degree_filter. cbn [fst].
    rewrite subgraph_has_edge. set_solver.
Qed.

(** C2. The three comprehensions of [app.py]: the IP hubs are exactly the
    nodes of type ip whose degree is greater than the threshold; the
    domain hubs and the target hubs are exactly the nodes of their type
    whose degree is greater than or equal to it. Each hub is listed once. *)
Theorem threshold_policies G t :
  (∀ n, n ∈ high_degree_ips G t
        ↔ n ∈ nodes G ∧ node_type G n = Some Kip ∧ (Z.of_nat (degree G n) > t)%Z)
  ∧ (∀ n, n ∈ high_degree_domains G t
        ↔ n ∈ nodes G ∧ node_type G n = Some Kdomain ∧ (Z.of_nat (degree G n) >= t)%Z)
  ∧ (∀ n, n ∈ high_degree_targets G t
        ↔ n ∈ nodes G ∧ node_type G n = Some Ktarget ∧ (Z.of_nat (degree G n) >= t)%Z)
  ∧ NoDup (high_degree_ips G t)
  ∧ NoDup (high_degree_domains G t)
  ∧ NoDup (high_degree_targets G t).
Proof.
  unfold high_degree_ips, high_degree_domains, high_degree_targets.
  split_and!; try apply NoDup_high_degree; intros n;
    rewrite elem_of_high_degree, elem_of_nodes,
      ?meets_Strict, ?meets_Inclusive; tauto.
Qed.

(** The two comparisons differ on the scenario rows at the threshold 3:
    ip1, of degree 3, is a hub for [>=] and not for [>]. *)
Example threshold_policies_differ :
  high_degree Inclusive Kip (tab1_graph ex_rows) 3 = ["ip1"]
  ∧ high_degree Strict Kip (tab1_graph ex_rows) 3 = [].
Proof. split; by vm_compute. Qed.

(** C3. In any graph, for a fixed kind and comparison mode, raising the
    threshold never raises any of the three numbers shown. *)
Theorem degree_filter_antitone G mode k t1 t2 :
  (t1 ≤ t2)%Z →
  let s1 := (degree_filter mode k G t1).2 in
  let s2 := (degree_filter mode k G t2).2 in
  hubs_shown s2 ≤ hubs_shown s1
  ∧ nodes_shown s2 ≤ nodes_shown s1
  ∧ edges_shown s2 ≤ edges_shown s1.
Proof.
  intros Ht. simpl.
  pose proof (high_degree_antitone mode k G t1 t2 Ht) as Hh.
  pose proof (nodes_to_draw_mono G _ _ Hh) as Hn.
  split_and!.
  - unfold high_degree. apply length_filter_impl.
    intros n [Hm ?]. eauto using meets_antitone.
  - rewrite !number_of_nodes_subgraph. apply subseteq_size. set_solver.
  - by apply number_of_edges_subgraph_mono.
Qed.

Lemma degree_filter_antitone_witness :
  hubs_shown (degree_filter Strict Kip (tab1_graph ex_rows) 3).2
    ≤ hubs_shown (degree_filter Strict Kip (tab1_graph ex_rows) 2).2
  ∧ nodes_shown (degree_filter Strict Kip (tab1_graph ex_rows) 3).2
    ≤ nodes_shown (degree_filter Strict Kip (tab1_graph ex_rows) 2).2
  ∧ edges_shown (degree_filter Strict Kip (tab1_graph ex_rows) 3).2
    ≤ edges_shown (degree_filter Strict Kip (tab1_graph ex_rows) 2).2.
Proof.
  apply (degree_filter_antitone (tab1_graph ex_rows) Strict Kip 2 3). lia.
Defined.

(** C4. The scenario of the specification, run through the code of tab 1:
    on the four rows, with the threshold 2, the only hub is ip1, of degree
    3; the subgraph has the four nodes ip1, d1, d2, d3 and the three edges
    from ip1; ip2 and the edge d1-ip2 are left out. The inclusive
    comparison gives the same result. *)
Theorem concrete_scenario :
  let G := tab1_graph ex_rows in
  let sub := (degree_filter Strict Kip G 2).1 in
  high_degree_ips G 2 = ["ip1"]
  ∧ degree G "ip1" = 3
  ∧ dom (g_node sub) = list_to_set ["ip1"; "d1"; "d2"; "d3"]
  ∧ (degree_filter Strict Kip G 2).2 = mkStats 1 4 3
  ∧ (has_edge sub "d1" "ip1" ∧ has_edge sub "d2" "ip1" ∧ has_edge sub "d3" "ip1")
  ∧ ("ip2" ∉ nodes sub)
  ∧ (¬ has_edge sub "d1" "ip2")
  ∧ degree_filter Inclusive Kip G 2 = degree_filter Strict Kip G 2.
Proof.
  intros G sub.
  split_and!; first [by vm_compute | apply (bool_decide_unpack _); by vm_compute].
Qed.

(** ** Node kinds, self-loops, row order *)

Section build_facts.

Context (k1 k2 : kind) (rel : edge_attr).
Implicit Types (G : Graph) (rows : list (string * string)) (n u v x y : string).

Lemma graph_eq G G' : g_node G = g_node G' → g_adj G = g_adj G' → G = G'.
Proof. destruct G, G'. simpl. by intros -> ->. Qed.

Lemma wf_adj_lookup G x :
  wf G →
  g_adj G !! x = if decide (x ∈ dom (g_node G)) then Some (adj_of G x) else None.
Proof.
  intros [Hd _]. rewrite <- Hd. unfold adj_of. case_decide as Hx.
  - apply elem_of_dom in Hx as [m ->]. done.
  - by apply not_elem_of_dom.
Qed.

(** Two tables with the same rows, whatever their order and however often
    each row is repeated, give the same nodes and the same adjacency. *)
Lemma build_graph_same_rows rows rows' :
  (∀ row, row ∈ rows ↔ row ∈ rows') →
  dom (g_node (build_graph k1 k2 rel rows)) = dom (g_node (build_graph k1 k2 rel rows'))
  ∧ g_adj (build_graph k1 k2 rel rows) = g_adj (build_graph k1 k2 rel rows').
Proof.
  intros Hrows.
  assert (dom (g_node (build_graph k1 k2 rel rows))
          = dom (g_node (build_graph k1 k2 rel rows'))) as Hdom.
  { apply set_eq. intros n. rewrite !build_graph_node_dom.
    by setoid_rewrite Hrows. }
  split; [done |].
  apply map_eq. intros x.
  rewrite !wf_adj_lookup by apply build_graph_wf. rewrite Hdom.
  case_decide; [| done]. f_equal.
  apply map_eq. intros y. rewrite !build_graph_adj_of_lookup.
  apply decide_ext. by rewrite !Hrows.
Qed.

Lemma add_node_same G n k :
  g_node G !! n = Some (Some k) → add_node G n (Some k) = G.
Proof.
  intros Hn. unfold add_node. rewrite Hn. simpl.
  rewrite insert_id by done. by apply graph_eq.
Qed.

(** An edge that is there, carrying what the call passes, is left as it
    is. *)
Lemma add_edge_same G u v attr :
  wf G →
  adj_of G u !! v = Some attr → adj_of G v !! u = Some attr →
  add_edge G u v attr = G.
Proof.
  intros HG Huv Hvu.
  assert (u ∈ dom (g_node G)) as Hu.
  { destruct HG as [Hd _]. rewrite <- Hd.
    eapply has_edge_adj_dom, has_edge_lookup. eauto. }
  assert (v ∈ dom (g_node G)) as Hv.
  { destruct HG as [Hd _]. rewrite <- Hd.
    eapply has_edge_adj_dom, has_edge_lookup. eauto. }
  assert (datadict G u v attr = attr) as Hdd.
  { unfold datadict. rewrite Huv. simpl. by destruct attr. }
  apply graph_eq; [by apply add_edge_node |].
  { apply map_eq. intros x. rewrite add_edge_adj_lookup by done.
    rewrite Hdd, (wf_adj_lookup G x) by done.
    destruct (decide (x = v)) as [-> | Hxv].
    - rewrite (decide_True _ _ Hv). f_equal.
      destruct (decide (u = v)) as [-> | Huv'].
      + rewrite insert_insert_eq. by rewrite insert_id.
      + by rewrite insert_id.
    - destruct (decide (x = u)) as [-> | Hxu]; [| done].
      rewrite (decide_True _ _ Hu). by rewrite insert_id. }
Qed.

(** In a table whose two columns share no value, a key is only ever
    inserted with one kind. *)
Lemma disjoint_columns_kinds rows n :
  (∀ r r', r ∈ rows → r' ∈ rows → r.1 ≠ r'.2) →
  last_kind (insertions k1 k2 rows) n = first_kind (insertions k1 k2 rows) n.
Proof.
  intros Hdisj.
  assert (∀ i, i ∈ filter (λ i, i.1 = n) (insertions k1 k2 rows) →
               i.2 = if decide (n ∈ rows.*1) then k1 else k2) as Hall.
  { intros [m k]. rewrite list_elem_of_filter. simpl. intros [-> Hi].
    unfold insertions in Hi. apply list_elem_of_bind in Hi as (r & Hi & Hr).
    apply elem_of_cons in Hi as [Hi | Hi]; simplify_eq.
    - rewrite decide_True; [done |]. apply list_elem_of_fmap. eauto.
    - apply list_elem_of_singleton in Hi. simplify_eq.
      rewrite decide_False; [done |].
      intros (r' & Heq & Hr')%list_elem_of_fmap.
      exact (Hdisj r' r Hr' Hr (eq_sym Heq)). }
  unfold last_kind, first_kind.
  destruct (filter (λ i, i.1 = n) (insertions k1 k2 rows)) as [| i l] eqn:E; [done |].
  simpl. destruct (last_is_Some (i :: l)) as [_ [j Hj]]; [done |].
  rewrite Hj. simpl. f_equal.
  rewrite (Hall i) by set_solver.
  rewrite (Hall j); [done |].
  apply list_elem_of_lookup. rewrite last_lookup in Hj. eauto.
Qed.

(** A row that was already read, in a table whose columns share no value,
    changes nothing when it is read again. *)
Lemma build_step_same rows row :
  (∀ r r', r ∈ rows → r' ∈ rows → r.1 ≠ r'.2) →
  row ∈ rows →
  build_step k1 k2 rel (build_graph k1 k2 rel rows) row = build_graph k1 k2 rel rows.
Proof.
  intros Hdisj Hrow. destruct row as [a b].
  assert (build_graph k1 k2 rel (rows ++ [(a, b)]) = build_graph k1 k2 rel rows)
    as Hsame; [| by rewrite build_graph_snoc in Hsame].
  assert (∀ r, r ∈ rows ++ [(a, b)] ↔ r ∈ rows) as Hrows by set_solver.
  destruct (build_graph_same_rows _ _ Hrows) as [Hdom Hadj].
  assert (g_node (build_graph k1 k2 rel (rows ++ [(a, b)]))
          = g_node (build_graph k1 k2 rel rows)) as Hnode.
  { apply map_eq. intros n. rewrite !build_graph_node_lookup. f_equal.
    rewrite !disjoint_columns_kinds; [| done | set_solver].
    unfold first_kind. rewrite insertions_snoc, filter_app.
    destruct (filter (λ i, i.1 = n) (insertions k1 k2 rows)) as [| i l] eqn:E;
      [| done].
    assert (∀ i, i ∈ insertions k1 k2 rows → i.1 ≠ n) as Hno.
    { intros i Hi Hn.
      assert (i ∈ filter (λ i, i.1 = n) (insertions k1 k2 rows)) as Hf
        by by apply list_elem_of_filter.
      rewrite E in Hf. by apply elem_of_nil in Hf. }
    assert ((a, k1) ∈ insertions k1 k2 rows ∧ (b, k2) ∈ insertions k1 k2 rows)
      as [Ha Hb].
    { unfold insertions. split; apply list_elem_of_bind; exists (a, b);
        set_solver. }
    apply Hno in Ha, Hb. simpl in Ha, Hb.
    rewrite !filter_cons, filter_nil. simpl.
    by rewrite !decide_False by done. }
  by apply graph_eq.
Qed.

End build_facts.

(** C5, as stated, fails. Read as: the kind of a node of the built graph
    is the kind of the first [add_node] on its key. A value that is the
    domain cell of one row and the ip cell of the same or of a later row
    is first inserted as a domain and ends as an ip; the second
    [add_node] is not a no-op. *)
Lemma kind_fixed_at_first_insertion_counterexample :
  node_type (tab1_graph ip_literal_rows) "203.0.113.7"
    ≠ first_kind (insertions Kdomain Kip ip_literal_rows) "203.0.113.7"
  ∧ node_type (tab1_graph reused_address_rows) "203.0.113.7"
    ≠ first_kind (insertions Kdomain Kip reused_address_rows) "203.0.113.7"
  ∧ add_node (add_node empty_graph "203.0.113.7" (Some Kdomain))
             "203.0.113.7" (Some Kip)
    ≠ add_node empty_graph "203.0.113.7" (Some Kdomain).
Proof.
  split_and!.
  - by vm_compute.
  - by vm_compute.
  - intros H. apply (f_equal (λ G, node_type G "203.0.113.7")) in H.
    by vm_compute in H.
Qed.

(** C5, amended. In a built graph the kind of a node is the kind of the
    last [add_node] on its key; [add_node] with the kind the node has and
    [add_edge] on an edge that is there change nothing. When the two
    columns share no value, the kind is also the one of the first
    insertion, and reading a row of the table again changes nothing. *)
Theorem node_kind_last_insertion k1 k2 rel rows :
  let G := build_graph k1 k2 rel rows in
  (∀ n, node_type G n = last_kind (insertions k1 k2 rows) n)
  ∧ (∀ n k, node_type G n = Some k → add_node G n (Some k) = G)
  ∧ (∀ u v, has_edge G u v → add_edge G u v rel = G)
  ∧ ((∀ r r', r ∈ rows → r' ∈ rows → r.1 ≠ r'.2) →
     (∀ n, node_type G n = first_kind (insertions k1 k2 rows) n)
     ∧ (∀ row, row ∈ rows → build_step k1 k2 rel G row = G)).
Proof.
  intros G. split_and!.
  - intros n. apply build_graph_node_type.
  - intros n k Hn. apply add_node_same. unfold node_type in Hn.
    by destruct (g_node G !! n) as [[k' |] |]; simplify_eq/=.
  - intros u v Huv.
    assert (∀ x y, has_edge G x y → adj_of G x !! y = Some rel) as Hrel.
    { intros x y. unfold G. rewrite build_graph_has_edge, build_graph_adj_of_lookup.
      intros H. by rewrite decide_True. }
    apply add_edge_same; [apply build_graph_wf | by apply Hrel |].
    apply Hrel. unfold G in *. rewrite build_graph_has_edge in *. tauto.
  - intros Hdisj. split.
    + intros n. unfold G. rewrite build_graph_node_type.
      by apply disjoint_columns_kinds.
    + intros row Hrow. by apply build_step_same.
Qed.

(** C6, as stated, fails: the row of a URL that names its host by address
    has the same text in both cells, and the edge the builder adds for it
    joins the node to itself. *)
Lemma no_self_loops_counterexample :
  has_edge (tab1_graph ip_literal_rows) "203.0.113.7" "203.0.113.7"
  ∧ ¬ self_loop_free (tab1_graph ip_literal_rows).
Proof.
  assert (has_edge (tab1_graph ip_literal_rows) "203.0.113.7" "203.0.113.7") as H.
  { apply (bool_decide_unpack _). by vm_compute. }
  split; [done |]. intros Hfree. by apply Hfree in H.
Qed.

(** C6, amended. A built graph has a self-loop on a key exactly when some
    row has that key in both cells; it has none exactly when the two cells
    of every row differ. *)
Theorem self_loops_from_equal_cells k1 k2 rel rows :
  let G := build_graph k1 k2 rel rows in
  (∀ u, has_edge G u u ↔ (u, u) ∈ rows)
  ∧ (self_loop_free G ↔ ∀ row, row ∈ rows → row.1 ≠ row.2).
Proof.
  intros G.
  assert (∀ u, has_edge G u u ↔ (u, u) ∈ rows) as Hloop.
  { intros u. unfold G. rewrite build_graph_has_edge. tauto. }
  split; [done |]. unfold self_loop_free. split.
  - intros Hfree [a b] Hrow Heq. simpl in Heq. subst b.
    by apply (Hfree a), Hloop.
  - intros Hne u Hu%Hloop. by apply (Hne _ Hu).
Qed.

(** C7. Two tables that are permutations of each other give the same node
    set, the same adjacency (hence the same edges, with the same
    attribute) and the same counts; reading every row a second time
    changes none of them either. *)
Theorem build_row_order_independent k1 k2 rel rows rows' :
  rows ≡ₚ rows' →
  let G := build_graph k1 k2 rel rows in
  let G' := build_graph k1 k2 rel rows' in
  let G2 := build_graph k1 k2 rel (rows ++ rows) in
  dom (g_node G) = dom (g_node G')
  ∧ g_adj G = g_adj G'
  ∧ (∀ u v, has_edge G u v ↔ has_edge G' u v)
  ∧ number_of_nodes G = number_of_nodes G'
  ∧ number_of_edges G = number_of_edges G'
  ∧ dom (g_node G2) = dom (g_node G)
  ∧ g_adj G2 = g_adj G.
Proof.
  intros Hperm G G' G2.
  destruct (build_graph_same_rows k1 k2 rel rows rows') as [Hdom Hadj].
  { intros row. by rewrite Hperm. }
  destruct (build_graph_same_rows k1 k2 rel (rows ++ rows) rows) as [Hdom2 Hadj2].
  { intros row. set_solver. }
  fold G G' in Hdom, Hadj. fold G2 G in Hdom2, Hadj2.
  split_and!; try done.
  - intros u v. unfold has_edge, adj_of. by rewrite Hadj.
  - unfold number_of_nodes. by rewrite <- !size_dom, Hdom.
  - unfold number_of_edges, nodes. rewrite Hdom. do 2 f_equal.
    apply list_fmap_ext. intros _ n _. unfold degree, adj_of. by rewrite Hadj.
Qed.

Lemma build_row_order_independent_witness :
  dom (g_node (tab1_graph ex_rows)) = dom (g_node (tab1_graph (reverse ex_rows)))
  ∧ g_adj (tab1_graph ex_rows) = g_adj (tab1_graph (reverse ex_rows)).
Proof.
  assert (ex_rows ≡ₚ reverse ex_rows) as Hperm
    by (symmetry; apply reverse_Permutation).
  pose proof (build_row_order_independent Kdomain Kip (Some HOSTED_ON)
                ex_rows (reverse ex_rows) Hperm) as H.
  cbv zeta in H. destruct H as (H1 & H2 & _).
  split; [exact H1 | exact H2].
Defined.

(** ** The record normaliser *)

Section normaliser_facts.

Variable urlparse : string -> Py.result ParseResult.

Lemma extract_domain_Ok url r :
  urlparse url = Py.Ok r → extract_domain urlparse url = Py.Ok (Some (netloc r)).
Proof. unfold extract_domain. by intros ->. Qed.

Lemma extract_domain_Raise url :
  Py.raises (urlparse url) → extract_domain urlparse url = Py.Ok None.
Proof. unfold extract_domain. by destruct (urlparse url). Qed.

Lemma extract_domain_total url : ∃ d, extract_domain urlparse url = Py.Ok d.
Proof. unfold extract_domain. destruct (urlparse url); simpl; eauto. Qed.

Lemma extract_domain_None url :
  extract_domain urlparse url = Py.Ok None ↔ Py.raises (urlparse url).
Proof.
  split; [| apply extract_domain_Raise].
  unfold extract_domain. by destruct (urlparse url).
Qed.

Lemma normalise_total rec :
  ∃ row, normalise urlparse rec = Py.Ok row
         ∧ r_phish_id row = phish_id rec
         ∧ r_url row = url rec
         ∧ r_target row = target rec
         ∧ r_ip row = extract_ip (details rec)
         ∧ extract_domain urlparse (url rec) = Py.Ok (r_domain row).
Proof.
  unfold normalise. destruct (extract_domain_total (url rec)) as [d Hd].
  rewrite Hd. simpl. eauto 10.
Qed.

(** A pass over a column whose function never raises gives one cell per
    cell, each the result of the function. *)
Lemma apply_total {A B} (f : A → Py.result B) (col : list A) :
  (∀ x, ∃ y, f x = Py.Ok y) →
  ∃ ys, Pd.apply f col = Py.Ok ys ∧ Forall2 (λ x y, f x = Py.Ok y) col ys.
Proof.
  intros Hf. induction col as [| x col (ys & IH & Hall)]; simpl.
  - eauto.
  - destruct (Hf x) as [y Hy]. rewrite Hy, IH. simpl. eauto.
Qed.

Lemma load_data_total file :
  ∃ df, load_data urlparse file = Py.Ok df
        ∧ Forall2 (λ rec row, normalise urlparse rec = Py.Ok row) (take 300 file) df.
Proof.
  unfold load_data, Pd.head. apply apply_total.
  intros rec. destruct (normalise_total rec) as (row & ? & _). eauto.
Qed.

Lemma dropna_elem_of subset df row :
  row ∈ dropna subset df ↔ row ∈ df ∧ ∀ c, c ∈ subset → is_Some (cell c row).
Proof.
  unfold dropna. rewrite list_elem_of_filter, Forall_forall. tauto.
Qed.

(** A row without a domain reaches none of the three builders. *)
Lemma dropna_domain_None df row :
  r_domain row = None → (row ∉ df1 df) ∧ (row ∉ df2 df) ∧ (row ∉ df3 df).
Proof.
  intros Hd. unfold df1, df2, df3.
  assert (∀ cols, col_domain ∈ cols → row ∉ dropna cols df) as Hdrop.
  { intros cols Hc [_ H]%dropna_elem_of. apply H in Hc. simpl in Hc.
    rewrite Hd in Hc. by destruct Hc. }
  split_and!; apply Hdrop; set_solver.
Qed.

(** The rows [dropna] leaves all give a pair of cells: the builder loops
    read every one of them. *)
Lemma cells_dropna c1 c2 df :
  Forall2 (λ row cc, cell c1 row = Some cc.1 ∧ cell c2 row = Some cc.2)
          (dropna [c1; c2] df) (cells c1 c2 (dropna [c1; c2] df)).
Proof.
  unfold cells.
  assert (Forall (λ row, is_Some (cell c1 row) ∧ is_Some (cell c2 row))
                 (dropna [c1; c2] df)) as Hall.
  { apply Forall_forall. intros row [_ H]%dropna_elem_of.
    split; apply H; set_solver. }
  induction Hall as [| row l [[a Ha] [b Hb]] Hl IH]; simpl; [constructor |].
  rewrite Ha, Hb. simpl. constructor; [by rewrite Ha, Hb | done].
Qed.

End normaliser_facts.

(** A URL the parser accepts without finding a network location has the
    empty text as its domain: that is a value, and [dropna] keeps the row. *)
Lemma dropna_keeps_empty_domain row df :
  row ∈ df → r_domain row = Some "" → is_Some (r_ip row) → row ∈ df1 df.
Proof.
  intros Hrow Hd Hip. unfold df1. apply dropna_elem_of. split; [done |].
  intros c Hc. repeat (apply elem_of_cons in Hc as [-> | Hc]); simpl;
    [by rewrite Hd | done | by apply elem_of_nil in Hc].
Qed.

Lemma dropna_elem_of_2 c1 c2 df row :
  row ∈ df → is_Some (cell c1 row) → is_Some (cell c2 row) →
  row ∈ dropna [c1; c2] df.
Proof.
  intros Hrow H1 H2. apply dropna_elem_of. split; [done |].
  intros c Hc. repeat (apply elem_of_cons in Hc as [-> | Hc]); try done.
  by apply elem_of_nil in Hc.
Qed.

(** C8, as stated, fails. A URL without scheme (and likewise text that is
    no URL at all) is malformed, yet the parser accepts it and finds the
    empty network location: the domain cell holds the empty text, which
    is a value, the missing-value filter keeps the row in tab 1 and in
    tab 3, and the empty text becomes a node of the graph. *)
Lemma malformed_url_absent_counterexample :
  extract_domain Url.urlparse "www.secure-login.example/signin" = Py.Ok (Some "")
  ∧ extract_domain Url.urlparse "not a url" = Py.Ok (Some "")
  ∧ ∃ df row,
      load_data Url.urlparse schemeless_file = Py.Ok df
      ∧ row ∈ df
      ∧ r_url row = "www.secure-login.example/signin"
      ∧ r_domain row = Some ""
      ∧ row ∈ df1 df
      ∧ row ∈ df3 df
      ∧ cells col_domain col_ip (df1 df) = [("", "203.0.113.7")]
      ∧ "" ∈ nodes (tab1_graph (cells col_domain col_ip (df1 df))).
Proof.
  split; [by vm_compute |]. split; [by vm_compute |].
  set (row := mkRow 7 "www.secure-login.example/signin"
                    (Some [mkDetail (Some "203.0.113.7")]) (Some "Other")
                    (Some "203.0.113.7") (Some "")).
  exists [row], row.
  split; [by vm_compute |].
  split; [by left |].
  split; [reflexivity |]. split; [reflexivity |].
  split; [apply dropna_elem_of_2; [by left | by eexists | by eexists] |].
  split; [apply dropna_elem_of_2; [by left | by eexists | by eexists] |].
  split; [by vm_compute |].
  apply (bool_decide_unpack _). by vm_compute.
Qed.

(** C8, amended. Whatever the parser does on a URL, [extract_domain]
    returns: the network location of the parse result when there is one
    (the empty text included), and no value exactly when the parser
    raises. [load_data] therefore never stops on a URL. A row whose URL
    the parser rejects has no domain and is dropped by the missing-value
    filter of each of the three tabs; a row whose URL the parser accepts
    has the network location as its domain, even an empty one, and is
    kept by tabs 1 and 2 when it has an address and by tab 3 when it has
    a target. *)
Theorem extract_domain_absent_iff_rejected
    (urlparse : string → Py.result ParseResult) (file : list Record_) :
  (∀ url, ∃ d, extract_domain urlparse url = Py.Ok d)
  ∧ (∀ url r, urlparse url = Py.Ok r →
              extract_domain urlparse url = Py.Ok (Some (netloc r)))
  ∧ (∀ url, extract_domain urlparse url = Py.Ok None ↔ Py.raises (urlparse url))
  ∧ ∃ df, load_data urlparse file = Py.Ok df
          ∧ length df = length file `min` 300
          ∧ (∀ row, row ∈ df → Py.raises (urlparse (r_url row)) →
                    r_domain row = None
                    ∧ (row ∉ df1 df) ∧ (row ∉ df2 df) ∧ (row ∉ df3 df))
          ∧ (∀ row r, row ∈ df → urlparse (r_url row) = Py.Ok r →
                      r_domain row = Some (netloc r)
                      ∧ (is_Some (r_ip row) → row ∈ df1 df ∧ row ∈ df2 df)
                      ∧ (is_Some (r_target row) → row ∈ df3 df)).
Proof.
  split_and!.
  - apply extract_domain_total.
  - apply extract_domain_Ok.
  - apply extract_domain_None.
  - destruct (load_data_total urlparse file) as (df & Hdf & Hall).
    assert (∀ row, row ∈ df →
              extract_domain urlparse (r_url row) = Py.Ok (r_domain row)) as Hdom.
    { intros row Hrow. apply list_elem_of_lookup in Hrow as [i Hi].
      destruct (Forall2_lookup_r _ _ _ _ _ Hall Hi) as (rec & _ & Hn).
      destruct (normalise_total urlparse rec)
        as (row' & Hn' & _ & Hu & _ & _ & He).
      rewrite Hn in Hn'. simplify_eq. by rewrite Hu. }
    exists df. split_and!; [done | | |].
    + apply Forall2_length in Hall. rewrite <- Hall, length_take. lia.
    + intros row Hrow Hbad.
      assert (r_domain row = None) as Hd.
      { apply Hdom in Hrow. rewrite extract_domain_Raise in Hrow by done.
        by simplify_eq. }
      split; [done |]. by apply dropna_domain_None.
    + intros row r Hrow Hr.
      assert (r_domain row = Some (netloc r)) as Hd.
      { apply Hdom in Hrow as Hrow'.
        rewrite (extract_domain_Ok urlparse _ r Hr) in Hrow'. by simplify_eq. }
      split_and!; [done | |].
      * intros Hip. unfold df1, df2.
        split; apply dropna_elem_of_2; simpl; rewrite ?Hd; done.
      * intros Ht. unfold df3.
        apply dropna_elem_of_2; simpl; rewrite ?Hd; done.
Qed.

(** ** The monthly view *)

Section pandas_facts.

Context {A : Type} `{EqDecision A}.
Implicit Types (l : list A) (x y : A).

Lemma elem_of_drop_duplicates l x : x ∈ Pd.drop_duplicates l ↔ x ∈ l.
Proof.
  induction l as [| y l IH]; simpl; [done |].
  rewrite !elem_of_cons, list_elem_of_filter, IH.
  destruct (decide (x = y)); naive_solver.
Qed.

Lemma NoDup_drop_duplicates l : NoDup (Pd.drop_duplicates l).
Proof.
  induction l as [| y l IH]; simpl; constructor.
  - rewrite list_elem_of_filter. naive_solver.
  - by apply NoDup_filter.
Qed.

Lemma insert_desc_Permutation (key : A → Z) x l :
  Pd.insert_desc key x l ≡ₚ x :: l.
Proof.
  induction l as [| y l IH]; simpl; [done |].
  case_match; [done |]. rewrite IH. apply perm_swap.
Qed.

Lemma sort_desc_Permutation (key : A → Z) l : Pd.sort_desc key l ≡ₚ l.
Proof.
  induction l as [| y l IH]; simpl; [done |].
  by rewrite insert_desc_Permutation, IH.
Qed.

Lemma elem_of_sort_desc (key : A → Z) l x : x ∈ Pd.sort_desc key l ↔ x ∈ l.
Proof. by rewrite sort_desc_Permutation. Qed.

End pandas_facts.

Section monthly_facts.

Implicit Types (counts s l : list (string * nat)) (best kv : string * nat).

(** The scan keeps the first of the lines with the largest count. *)
Lemma argmax_spec best l :
  ∃ before after,
    best :: l = before ++ Pd.argmax best l :: after
    ∧ (∀ kv, kv ∈ before → kv.2 < (Pd.argmax best l).2)
    ∧ (∀ kv, kv ∈ after → kv.2 ≤ (Pd.argmax best l).2).
Proof.
  revert best. induction l as [| x l IH]; intros best; simpl.
  - exists [], []. split_and!; [done | |]; intros kv H; by apply elem_of_nil in H.
  - destruct (best.2 <? x.2) eqn:E.
    + apply Nat.ltb_lt in E.
      destruct (IH x) as (before & after & Heq & Hb & Ha).
      exists (best :: before), after. split_and!.
      * by rewrite Heq.
      * intros kv [-> | H]%elem_of_cons; [| by apply Hb].
        assert (x.2 ≤ (Pd.argmax x l).2); [| lia].
        destruct before as [| b before]; simpl in Heq; injection Heq as Hx Hl.
        -- rewrite <- Hx. lia.
        -- subst b. assert (x ∈ x :: before) as Hx%Hb by (by left). lia.
      * done.
    + apply Nat.ltb_ge in E.
      destruct (IH best) as (before & after & Heq & Hb & Ha).
      destruct before as [| b before]; simpl in Heq; injection Heq as Hx Hl.
      * exists [], (x :: l). rewrite <- Hx. split_and!.
        -- done.
        -- intros kv Hkv. by apply elem_of_nil in Hkv.
        -- intros kv [-> | Hkv]%elem_of_cons; [done |].
           rewrite Hx. apply Ha. congruence.
      * subst b. exists (best :: x :: before), after. split_and!.
        -- simpl. do 2 f_equal. exact Hl.
        -- intros kv [-> | [-> | Hkv]%elem_of_cons]%elem_of_cons.
           ++ apply Hb. by left.
           ++ assert (best ∈ best :: before) as Hx%Hb by (by left). lia.
           ++ apply Hb. by right.
        -- done.
Qed.

Lemma non_other_elem_of counts kv :
  kv ∈ non_other counts ↔ kv.1 ≠ "Other" ∧ kv ∈ counts.
Proof. unfold non_other. by rewrite list_elem_of_filter. Qed.

Lemma non_other_nil counts :
  non_other counts = [] ↔ ∀ kv, kv ∈ counts → kv.1 = "Other".
Proof.
  split.
  - intros Hnil kv Hkv. destruct (decide (kv.1 = "Other")) as [| Hne]; [done |].
    assert (kv ∈ non_other counts) as H by by apply non_other_elem_of.
    rewrite Hnil in H. by apply elem_of_nil in H.
  - intros Hall. destruct (non_other counts) as [| kv l] eqn:E; [done |].
    assert (kv ∈ non_other counts) as [Hne Hkv]%non_other_elem_of
      by (rewrite E; by left).
    by apply Hall in Hkv.
Qed.

(** What a frequency table holds. *)
Lemma value_counts_elem_of (col : list (option string)) name n :
  (name, n) ∈ Pd.value_counts col
  ↔ Some name ∈ col ∧ n = length (filter (λ c, c = Some name) col).
Proof.
  unfold Pd.value_counts, Pd.counts. rewrite elem_of_sort_desc, list_elem_of_fmap.
  assert (∀ v, length (filter (λ w, w = v) (omap id col))
               = length (filter (λ c, c = Some v) col)) as Hlen.
  { intros v. induction col as [| [w |] col IH]; csimpl; [done | |].
    - rewrite !filter_cons.
      destruct (decide (w = v)) as [-> | Hne].
      + rewrite decide_True by done. simpl. by rewrite IH.
      + rewrite decide_False by congruence. done.
    - rewrite filter_cons. by rewrite decide_False by done. }
  assert (∀ v, v ∈ omap id col ↔ Some v ∈ col) as Hin.
  { intros v. rewrite list_elem_of_omap. split.
    - intros ([w |] & Hw & Heq); simplify_eq/=. done.
    - intros Hv. exists (Some v). done. }
  split.
  - intros (v & Heq & Hv). simplify_eq.
    apply (proj1 (elem_of_drop_duplicates _ _)) in Hv.
    split; [by apply Hin | apply Hlen].
  - intros [Hname ->]. exists name. split; [by rewrite Hlen |].
    by apply elem_of_drop_duplicates, Hin.
Qed.

End monthly_facts.

Lemma elem_of_length_filter {A} `{EqDecision A} (l : list A) (x : A) :
  x ∈ l ↔ 0 < length (filter (λ y, y = x) l).
Proof.
  induction l as [| y l IH]; simpl.
  - rewrite elem_of_nil. lia.
  - rewrite filter_cons, elem_of_cons. destruct (decide (y = x)) as [-> | Hne].
    + simpl. split; [lia | by left].
    + rewrite <- IH. naive_solver.
Qed.

(** The cells of a month's target column, counted on the file. *)
Lemma df_month_count file key name :
  length (filter (λ c, c = Some name)
                 (t_target <$> df_month (load_data_with_time file) key))
  = length (filter (λ rec, to_period_M (submission_time rec) = key
                           ∧ target rec = Some name) file).
Proof.
  unfold df_month, load_data_with_time.
  induction file as [| rec file IH]; [done |]. csimpl.
  rewrite !filter_cons. simpl.
  destruct (decide (to_period_M (submission_time rec) = key)) as [Hk | Hk].
  - csimpl. rewrite filter_cons. simpl.
    destruct (decide (target rec = Some name)) as [Ht | Ht].
    + rewrite decide_True by done. simpl. by rewrite IH.
    + rewrite decide_False by tauto. done.
  - rewrite decide_False by tauto. done.
Qed.

(** C9. On every frequency table the headline of tab 4 is computed without
    an exception. It is the no-named-target line exactly when every line of
    the table is "Other"; otherwise it names a line of the table that is
    not "Other", whose count no other such line exceeds, and which is the
    first of these lines in the order of the table with that count. On
    the table counted from a month's records, the no-named-target line
    comes out exactly when every record's target is "Other" or missing,
    and a named headline carries the number of records with that target. *)
Theorem most_targeted_named :
  (∀ counts, ∃ h, most_targeted counts = Py.Ok h ∧
     match h with
     | NoNamedTargets => ∀ kv, kv ∈ counts → kv.1 = "Other"
     | MostTargeted name n =>
         name ≠ "Other"
         ∧ (name, n) ∈ counts
         ∧ (∀ kv, kv ∈ counts → kv.1 ≠ "Other" → kv.2 ≤ n)
         ∧ ∃ before after,
             non_other counts = before ++ (name, n) :: after
             ∧ ∀ kv, kv ∈ before → kv.2 < n
     end)
  ∧ (∀ col : list (option string),
       most_targeted (Pd.value_counts col) = Py.Ok NoNamedTargets
       ↔ ∀ c, c ∈ col → c = Some "Other" ∨ c = None)
  ∧ (∀ (col : list (option string)) name n,
       most_targeted (Pd.value_counts col) = Py.Ok (MostTargeted name n) →
       name ≠ "Other" ∧ Some name ∈ col
       ∧ n = length (filter (λ c, c = Some name) col)
       ∧ ∀ other, other ≠ "Other" →
                  length (filter (λ c, c = Some other) col) ≤ n).
Proof.
  assert (∀ counts, ∃ h, most_targeted counts = Py.Ok h ∧
     match h with
     | NoNamedTargets => ∀ kv, kv ∈ counts → kv.1 = "Other"
     | MostTargeted name n =>
         name ≠ "Other"
         ∧ (name, n) ∈ counts
         ∧ (∀ kv, kv ∈ counts → kv.1 ≠ "Other" → kv.2 ≤ n)
         ∧ ∃ before after,
             non_other counts = before ++ (name, n) :: after
             ∧ ∀ kv, kv ∈ before → kv.2 < n
     end) as Htable.
  { intros counts. unfold most_targeted.
    destruct (non_other counts) as [| x l] eqn:E.
    - exists NoNamedTargets. rewrite bool_decide_eq_true_2 by done.
      split; [done |]. by apply non_other_nil.
    - rewrite bool_decide_eq_false_2 by done. simpl.
      exists (MostTargeted (Pd.argmax x l).1 (Pd.argmax x l).2). split; [done |].
      destruct (argmax_spec x l) as (before & after & Heq & Hb & Ha).
      assert (Pd.argmax x l ∈ non_other counts) as Hin.
      { rewrite E, Heq. set_solver. }
      apply non_other_elem_of in Hin as [Hne Hin].
      rewrite <- surjective_pairing. split_and!; [done | done | |].
      + intros kv Hkv Hkvne.
        assert (kv ∈ x :: l) as Hkv'.
        { rewrite <- E. by apply non_other_elem_of. }
        rewrite Heq in Hkv'.
        apply elem_of_app in Hkv' as [Hkv' | [-> | Hkv']%elem_of_cons].
        * apply Hb in Hkv'. lia.
        * done.
        * by apply Ha.
      + exists before, after. done. }
  split_and!; [done | |].
  - intros col. split.
    + intros Hnone c Hc. destruct c as [name |]; [left | by right].
      destruct (Htable (Pd.value_counts col)) as (h & Hh & Hspec).
      rewrite Hnone in Hh. simplify_eq.
      specialize (Hspec (name, length (filter (λ c, c = Some name) col))).
      simpl in Hspec. rewrite Hspec; [done |].
      by apply value_counts_elem_of.
    + intros Hall.
      destruct (Htable (Pd.value_counts col)) as ([name n |] & Hh & Hspec);
        [| done].
      destruct Hspec as (Hne & [Hin _]%value_counts_elem_of & _).
      apply Hall in Hin as [? | ?]; by simplify_eq.
  - intros col name n Hres.
    destruct (Htable (Pd.value_counts col)) as (h & Hh & Hspec).
    rewrite Hres in Hh. simplify_eq.
    destruct Hspec as (Hne & [Hin Hn]%value_counts_elem_of & Hmax & _).
    split_and!; [done | done | done |].
    intros other Hother.
    destruct (decide (Some other ∈ col)) as [Ho | Ho].
    + apply (Hmax (other, length (filter (λ c, c = Some other) col)));
        [| done]. by apply value_counts_elem_of.
    + rewrite elem_of_length_filter in Ho. lia.
Qed.

(** The scenario of the specification: with the counts Other 10, Apple 3,
    Amazon 3 the headline names Apple, the first of the two in the table. *)
Example most_targeted_tie :
  most_targeted [("Other", 10); ("Apple", 3); ("Amazon", 3)]
  = Py.Ok (MostTargeted "Apple" 3)
  ∧ most_targeted [("Other", 10)] = Py.Ok NoNamedTargets.
Proof. split; by vm_compute. Qed.

(** C10. The monthly view reads every record of the file: its frame has
    one row per record, a month is offered exactly when some record of
    the file falls in it, and a target's count in a month is the number of
    records of the whole file with that month and target. The frame of
    the graph tabs has the first 300 records only: a record at position
    300 or later has no row there, while its month is still offered. *)
Theorem temporal_path_unwindowed
    (urlparse : string → Py.result ParseResult) (file : list Record_) :
  let df_time := load_data_with_time file in
  length df_time = length file
  ∧ (∀ key, key ∈ (month_lookup df_time).*1
            ↔ ∃ rec, rec ∈ file ∧ to_period_M (submission_time rec) = key)
  ∧ (∀ key name n,
       (name, n) ∈ target_counts df_time key
       ↔ 0 < n
         ∧ n = length (filter (λ rec, to_period_M (submission_time rec) = key
                                      ∧ target rec = Some name) file))
  ∧ ∃ df, load_data urlparse file = Py.Ok df
          ∧ length df = length file `min` 300
          ∧ r_phish_id <$> df = phish_id <$> take 300 file
          ∧ ∀ i rec, file !! i = Some rec → 300 ≤ i →
                     df !! i = None
                     ∧ to_period_M (submission_time rec)
                         ∈ (month_lookup df_time).*1.
Proof.
  intros df_time.
  assert (∀ key, key ∈ (month_lookup df_time).*1
            ↔ ∃ rec, rec ∈ file ∧ to_period_M (submission_time rec) = key)
    as Hmonths.
  { intros key. unfold month_lookup, df_time, load_data_with_time.
    rewrite list_elem_of_fmap. split.
    - intros ([k lbl] & -> & Hin). rewrite elem_of_sort_desc in Hin.
      apply (proj1 (elem_of_drop_duplicates _ _)) in Hin.
      apply list_elem_of_fmap in Hin as (r & Hr & Hin).
      apply list_elem_of_fmap in Hin as (rec & -> & Hin).
      simpl in Hr. exists rec. by simplify_eq.
    - intros (rec & Hrec & <-).
      exists (to_period_M (submission_time rec), strftime_B_Y (submission_time rec)).
      split; [done |]. rewrite elem_of_sort_desc.
      apply elem_of_drop_duplicates. rewrite <- list_fmap_compose.
      apply list_elem_of_fmap. by exists rec. }
  split_and!; [| done | |].
  - unfold df_time, load_data_with_time. by rewrite length_fmap.
  - intros key name n. unfold target_counts.
    rewrite value_counts_elem_of, elem_of_length_filter.
    unfold df_time. rewrite df_month_count. split; intros [? ?]; subst; done.
  - destruct (load_data_total urlparse file) as (df & Hdf & Hall).
    assert (length df = length file `min` 300) as Hlen.
    { apply Forall2_length in Hall. rewrite <- Hall, length_take. lia. }
    exists df. split_and!; [done | done | |].
    + clear Hlen Hdf. induction Hall as [| rec row l l' Hn Hall IH]; [done |].
      csimpl. rewrite IH. f_equal.
      destruct (normalise_total urlparse rec) as (row' & Hn' & Hid & _).
      rewrite Hn in Hn'. by simplify_eq.
    + intros i rec Hi Hge. split.
      * apply lookup_ge_None. lia.
      * apply Hmonths. exists rec. split; [| done].
        apply list_elem_of_lookup. eauto.
Qed.

(** ** The order of the frequency table *)

Section stable_sort.

Context {A : Type} (key : A → Z).
Implicit Types (l : list A) (x y : A).

Lemma insert_desc_le x l :
  Forall (λ z, (key z ≤ key x)%Z) l → Pd.insert_desc key x l = x :: l.
Proof.
  destruct 1 as [| y l Hy _]; simpl; [done |].
  by rewrite (proj2 (Z.leb_le _ _) Hy).
Qed.

Lemma insert_desc_sorted x l :
  Pd.sorted_desc key l → Pd.sorted_desc key (Pd.insert_desc key x l).
Proof.
  induction 1 as [| y l Hl IH Hy]; simpl.
  - repeat constructor.
  - destruct (key y <=? key x)%Z eqn:E.
    + apply Z.leb_le in E. constructor; [by constructor |].
      constructor; [done |].
      eapply Forall_impl; [exact Hy |]. intros z Hz. simpl in Hz. lia.
    + apply Z.leb_gt in E. constructor; [done |].
      rewrite insert_desc_Permutation. constructor; [| done]. lia.
Qed.

Lemma sort_desc_sorted l : Pd.sorted_desc key (Pd.sort_desc key l).
Proof.
  induction l as [| x l IH]; simpl; [constructor | by apply insert_desc_sorted].
Qed.

(** The sort is stable: it commutes with dropping lines. *)
Lemma filter_insert_desc (P : A → Prop) `{!∀ x, Decision (P x)} x l :
  Pd.sorted_desc key l →
  filter P (Pd.insert_desc key x l)
  = if decide (P x) then Pd.insert_desc key x (filter P l) else filter P l.
Proof.
  induction 1 as [| y l Hl IH Hy]; simpl.
  - rewrite filter_cons, filter_nil. by case_decide.
  - destruct (key y <=? key x)%Z eqn:E.
    + apply Z.leb_le in E. rewrite filter_cons. case_decide as HP; [| done].
      symmetry. apply insert_desc_le.
      apply Forall_forall. intros z [_ Hz]%list_elem_of_filter.
      apply elem_of_cons in Hz as [-> | Hz]; [done |].
      rewrite Forall_forall in Hy. apply Hy in Hz. lia.
    + rewrite !(filter_cons _ y), IH.
      destruct (decide (P y)); [| done].
      case_decide; [| done]. simpl. by rewrite E.
Qed.

Lemma filter_sort_desc (P : A → Prop) `{!∀ x, Decision (P x)} l :
  filter P (Pd.sort_desc key l) = Pd.sort_desc key (filter P l).
Proof.
  induction l as [| x l IH]; simpl; [done |].
  rewrite filter_insert_desc by apply sort_desc_sorted.
  rewrite filter_cons, IH. by case_decide.
Qed.

End stable_sort.

Section first_encountered.

Implicit Types (l : list (string * nat)) (x y : string * nat).

Lemma argmax_ge best l : best.2 ≤ (Pd.argmax best l).2.
Proof.
  destruct (argmax_spec best l) as (before & after & Heq & Hb & _).
  destruct before as [| b before]; simpl in Heq; injection Heq as Hx _.
  - by rewrite <- Hx.
  - subst b. assert (best ∈ best :: before) as H%Hb by (by left). lia.
Qed.

Lemma argmax_cons x y l :
  Pd.argmax x (y :: l)
  = if ((Pd.argmax y l).2 <=? x.2) then x else Pd.argmax y l.
Proof.
  revert x y. induction l as [| z l IH]; intros x y.
  - simpl. destruct (x.2 <? y.2) eqn:E1, (y.2 <=? x.2) eqn:E2; try done.
    + apply Nat.ltb_lt in E1. apply Nat.leb_le in E2. lia.
    + apply Nat.ltb_ge in E1. apply Nat.leb_gt in E2. lia.
  - change (Pd.argmax x (y :: z :: l))
      with (if x.2 <? y.2 then Pd.argmax y (z :: l) else Pd.argmax x (z :: l)).
    pose proof (argmax_ge y (z :: l)) as Hge.
    rewrite (IH x z). rewrite (IH y z) in *.
    destruct (x.2 <? y.2) eqn:E1;
      [apply Nat.ltb_lt in E1 | apply Nat.ltb_ge in E1];
      destruct ((Pd.argmax z l).2 <=? y.2) eqn:E2;
      [apply Nat.leb_le in E2 | apply Nat.leb_gt in E2
      |apply Nat.leb_le in E2 | apply Nat.leb_gt in E2].
    + rewrite (proj2 (Nat.leb_gt _ _)) by lia. done.
    + rewrite (proj2 (Nat.leb_gt _ _)) by lia. done.
    + rewrite (proj2 (Nat.leb_le _ _)) by lia.
      rewrite (proj2 (Nat.leb_le _ _)) by lia. done.
    + done.
Qed.

Lemma argmax_sorted x l :
  Forall (λ y, y.2 ≤ x.2) l → Pd.argmax x l = x.
Proof.
  induction 1 as [| y l Hy _ IH]; simpl; [done |].
  by rewrite (proj2 (Nat.ltb_ge _ _) Hy).
Qed.

(** The first line of the sorted table is the line the scan picks in the
    unsorted one. *)
Lemma sort_desc_head x l :
  list.head (Pd.sort_desc (λ kv, Z.of_nat kv.2) (x :: l)) = Some (Pd.argmax x l).
Proof.
  revert x. induction l as [| y l IH]; intros x; [done |].
  rewrite argmax_cons. specialize (IH y).
  change (Pd.sort_desc (λ kv, Z.of_nat kv.2) (x :: y :: l))
    with (Pd.insert_desc (λ kv, Z.of_nat kv.2) x
            (Pd.sort_desc (λ kv, Z.of_nat kv.2) (y :: l))).
  destruct (Pd.sort_desc (λ kv, Z.of_nat kv.2) (y :: l)) as [| m s]; [done |].
  simpl in IH. injection IH as ->. simpl.
  destruct ((Pd.argmax y l).2 <=? x.2) eqn:E.
  - apply Nat.leb_le in E. by rewrite (proj2 (Z.leb_le _ _)) by lia.
  - apply Nat.leb_gt in E. by rewrite (proj2 (Z.leb_gt _ _)) by lia.
Qed.

(** With a sort that keeps the order of first appearance among equal
    counts, the headline is the one computed on the unsorted lines: among
    the named targets with the largest count, the one whose first record
    comes first in the month. *)
Lemma most_targeted_first_encountered (col : list (option string)) :
  most_targeted (Pd.value_counts col) = most_targeted (Pd.counts col).
Proof.
  unfold most_targeted, Pd.value_counts, non_other.
  rewrite filter_sort_desc.
  destruct (filter (λ kv, kv.1 ≠ "Other") (Pd.counts col)) as [| x l]; [done |].
  pose proof (sort_desc_head x l) as Hhead.
  pose proof (sort_desc_sorted (λ kv : string * nat, Z.of_nat kv.2) (x :: l)) as Hs.
  destruct (Pd.sort_desc (λ kv, Z.of_nat kv.2) (x :: l)) as [| m s]; [done |].
  simpl in Hhead. injection Hhead as ->.
  rewrite !bool_decide_eq_false_2 by done. simpl.
  apply StronglySorted_inv in Hs as [_ Hs].
  rewrite (argmax_sorted (Pd.argmax x l) s); [done |].
  eapply Forall_impl; [exact Hs |]. simpl. intros z Hz. lia.
Qed.

End first_encountered.

(** * Further properties of the scripts *)

(** ** Built graphs: shape, degrees, kinds *)

Section built_graphs.

Context (k1 k2 : kind) (rel : edge_attr).
Implicit Types (G : Graph) (rows : list (string * string)) (n u v : string).

Lemma elem_of_partners rows n v :
  v ∈ partners rows n ↔ (n, v) ∈ rows ∨ (v, n) ∈ rows.
Proof.
  unfold partners. rewrite elem_of_list_to_set, list_elem_of_bind. split.
  - intros ([a b] & Hv & Hrow). simpl in Hv.
    apply elem_of_app in Hv as [Hv | Hv]; case_decide; subst;
      try (by apply elem_of_nil in Hv);
      apply list_elem_of_singleton in Hv; subst; auto.
  - intros [H | H].
    + exists (n, v). split; [| done]. simpl. rewrite decide_True by done.
      set_solver.
    + exists (v, n). split; [| done]. simpl.
      rewrite (decide_True (P := n = n)) by done. set_solver.
Qed.

Lemma build_graph_adj_dom rows n :
  dom (adj_of (build_graph k1 k2 rel rows) n) = partners rows n.
Proof.
  apply set_eq. intros v.
  rewrite elem_of_partners. apply (build_graph_has_edge k1 k2 rel rows n v).
Qed.

Lemma degree_dom G n :
  degree G n
  = size (dom (adj_of G n)) + (if decide (n ∈ dom (adj_of G n)) then 1 else 0).
Proof. unfold degree. by rewrite size_dom. Qed.

Lemma insertions_kinds rows i :
  i ∈ insertions k1 k2 rows →
  ∃ row, row ∈ rows ∧ (i = (row.1, k1) ∨ i = (row.2, k2)).
Proof.
  unfold insertions. intros (row & Hi & Hrow)%list_elem_of_bind.
  exists row. split; [done |]. set_solver.
Qed.

Lemma last_kind_elem_of rows n k :
  last_kind (insertions k1 k2 rows) n = Some k → (n, k) ∈ insertions k1 k2 rows.
Proof.
  unfold last_kind. intros Hl.
  destruct (last _) as [[m k'] |] eqn:E; simplify_eq/=.
  apply last_Some_elem_of, list_elem_of_filter in E as [Hm E].
  simpl in Hm. by subst.
Qed.

Lemma build_graph_degree rows n :
  degree (build_graph k1 k2 rel rows) n
  = size (partners rows n) + (if decide ((n, n) ∈ rows) then 1 else 0).
Proof.
  rewrite degree_dom, build_graph_adj_dom. f_equal.
  apply decide_ext. rewrite elem_of_partners. tauto.
Qed.

Lemma build_graph_degree_pos rows n :
  n ∈ nodes (build_graph k1 k2 rel rows) → 1 ≤ degree (build_graph k1 k2 rel rows) n.
Proof.
  intros Hn. rewrite build_graph_degree.
  apply elem_of_nodes, build_graph_node_dom in Hn as ([a b] & Hrow & Hn).
  assert (∃ v, v ∈ partners rows n) as [v Hv].
  { simpl in Hn. destruct Hn as [-> | ->];
      [exists b | exists a]; apply elem_of_partners; auto. }
  assert (size (partners rows n) ≠ 0); [| lia].
  apply size_non_empty_iff. set_solver.
Qed.

Lemma build_graph_type_of rows n :
  n ∈ nodes (build_graph k1 k2 rel rows) →
  type_of (build_graph k1 k2 rel rows) n = Py.Ok k1
  ∨ type_of (build_graph k1 k2 rel rows) n = Py.Ok k2.
Proof.
  intros Hn%elem_of_nodes. unfold type_of.
  rewrite (build_graph_node_type k1 k2 rel rows n).
  apply elem_of_dom in Hn as [d Hd'].
  rewrite build_graph_node_lookup in Hd'.
  destruct (last_kind (insertions k1 k2 rows) n) as [k |] eqn:E; [| done].
  apply last_kind_elem_of, insertions_kinds in E as (row & _ & [E | E]);
    simplify_eq; auto.
Qed.

End built_graphs.

(** X1. What every built graph keeps: the two dictionaries have the same
    keys, both ends of an edge are nodes, the adjacency is symmetric with
    the same attribute on both sides (the attribute the builder passes),
    and every node carries one of the two kinds of the builder, so that
    reading the type of a node never fails. *)
Theorem built_graph_invariants k1 k2 rel rows :
  let G := build_graph k1 k2 rel rows in
  dom (g_adj G) = dom (g_node G)
  ∧ (∀ u v, has_edge G u v → u ∈ nodes G ∧ v ∈ nodes G)
  ∧ (∀ u v, adj_of G u !! v = adj_of G v !! u)
  ∧ (∀ u v d, adj_of G u !! v = Some d → d = rel)
  ∧ (∀ n, n ∈ nodes G →
          (type_of G n = Py.Ok k1 ∨ type_of G n = Py.Ok k2)).
Proof.
  intros G. destruct (build_graph_wf k1 k2 rel rows) as [Hd Hc]. fold G in Hd, Hc.
  split_and!.
  - done.
  - intros u v Huv. rewrite !elem_of_nodes. split; [| by eapply Hc].
    rewrite <- Hd. by eapply has_edge_adj_dom.
  - intros u v. unfold G. rewrite !build_graph_adj_of_lookup.
    apply decide_ext. tauto.
  - intros u v d. unfold G. rewrite build_graph_adj_of_lookup.
    case_decide; naive_solver.
  - intros n Hn. by apply build_graph_type_of.
Qed.

(** X2. The degree of a node of a built graph is the number of distinct
    values its rows join it to, repeated rows counting once, plus one when
    a row has the node in both cells; no node is isolated. *)
Theorem degree_counts_partners k1 k2 rel rows n :
  let G := build_graph k1 k2 rel rows in
  (∀ v, v ∈ neighbors G n ↔ (n, v) ∈ rows ∨ (v, n) ∈ rows)
  ∧ degree G n
    = size (partners rows n) + (if decide ((n, n) ∈ rows) then 1 else 0)
  ∧ (n ∈ nodes G → 1 ≤ degree G n).
Proof.
  intros G. split_and!.
  - intros v. rewrite elem_of_neighbors. apply build_graph_has_edge.
  - apply build_graph_degree.
  - apply build_graph_degree_pos.
Qed.

Lemma insertions_elem_of k1 k2 (rows : list (string * string)) a b :
  (a, b) ∈ rows →
  (a, k1) ∈ insertions k1 k2 rows ∧ (b, k2) ∈ insertions k1 k2 rows.
Proof.
  intros Hrow. unfold insertions.
  split; apply list_elem_of_bind; exists (a, b); set_solver.
Qed.

Lemma last_kind_is_Some k1 k2 (rows : list (string * string)) n k :
  (n, k) ∈ insertions k1 k2 rows →
  is_Some (last_kind (insertions k1 k2 rows) n).
Proof.
  intros Hin. unfold last_kind. apply fmap_is_Some, last_is_Some.
  intros Hnil.
  assert ((n, k) ∈ filter (λ i : string * kind, i.1 = n) (insertions k1 k2 rows))
    as Hf by by apply list_elem_of_filter.
  rewrite Hnil in Hf. by apply elem_of_nil in Hf.
Qed.

(** In a table whose columns share no value, the cells of the first
    column end with the first kind and those of the second with the
    second. *)
Lemma disjoint_column_kinds k1 k2 rel (rows : list (string * string)) a b :
  (∀ r r', r ∈ rows → r' ∈ rows → r.1 ≠ r'.2) →
  (a, b) ∈ rows →
  node_type (build_graph k1 k2 rel rows) a = Some k1
  ∧ node_type (build_graph k1 k2 rel rows) b = Some k2.
Proof.
  intros Hdisj Hrow. rewrite !build_graph_node_type.
  destruct (insertions_elem_of k1 k2 rows a b Hrow) as [Ha Hb].
  split.
  - destruct (last_kind_is_Some _ _ _ _ _ Ha) as [k Hk]. rewrite Hk. f_equal.
    apply last_kind_elem_of, insertions_kinds in Hk as (row & Hr & [E | E]);
      simplify_eq; [done |].
    destruct (Hdisj (row.2, b) row Hrow Hr). done.
  - destruct (last_kind_is_Some _ _ _ _ _ Hb) as [k Hk]. rewrite Hk. f_equal.
    apply last_kind_elem_of, insertions_kinds in Hk as (row & Hr & [E | E]);
      simplify_eq; [| done].
    destruct (Hdisj row (a, row.1) Hr Hrow). done.
Qed.

(** X3. When no value occurs in both columns of the table (the case the
    scripts are written for), the built graph is bipartite: every edge
    joins a node of the first column's kind to a node of the second
    column's kind. In the IP tab every neighbour of an ip node is then a
    domain. *)
Theorem built_graph_bipartite k1 k2 rel rows :
  (∀ r r', r ∈ rows → r' ∈ rows → r.1 ≠ r'.2) →
  let G := build_graph k1 k2 rel rows in
  (∀ u v, has_edge G u v →
          (node_type G u = Some k1 ∧ node_type G v = Some k2)
          ∨ (node_type G u = Some k2 ∧ node_type G v = Some k1))
  ∧ (k1 ≠ k2 →
     ∀ u v, has_edge G u v → node_type G u = Some k2 → node_type G v = Some k1).
Proof.
  intros Hdisj G.
  assert (∀ u v, has_edge G u v →
          (node_type G u = Some k1 ∧ node_type G v = Some k2)
          ∨ (node_type G u = Some k2 ∧ node_type G v = Some k1)) as Hbip.
  { intros u v [H | H]%build_graph_has_edge.
    - left. by apply disjoint_column_kinds.
    - right. apply and_comm. by apply disjoint_column_kinds. }
  split; [done |].
  intros Hne u v Huv Hu. apply Hbip in Huv as [[Hu' _] | [_ Hv]]; [| done].
  congruence.
Qed.

Lemma ex_rows_disjoint r r' : r ∈ ex_rows → r' ∈ ex_rows → r.1 ≠ r'.2.
Proof.
  unfold ex_rows. intros Hr Hr'.
  repeat (apply elem_of_cons in Hr as [-> | Hr]);
    try (by apply elem_of_nil in Hr);
    repeat (apply elem_of_cons in Hr' as [-> | Hr']);
    try (by apply elem_of_nil in Hr'); done.
Defined.

Lemma built_graph_bipartite_witness :
  node_type (tab1_graph ex_rows) "d1" = Some Kdomain.
Proof.
  pose proof (built_graph_bipartite Kdomain Kip (Some HOSTED_ON) ex_rows
                ex_rows_disjoint) as H.
  cbv zeta in H. destruct H as [_ H].
  apply (H ltac:(done) "ip1" "d1").
  - apply (bool_decide_unpack _). by vm_compute.
  - by vm_compute.
Defined.

(** ** Subgraphs *)

Section subgraph_facts.

Implicit Types (G : Graph) (n u v h : string) (X : gset string).

Lemma subgraph_adj_dom G X n :
  dom (adj_of (subgraph G X) n)
  = if decide (n ∈ X ∩ dom (g_node G))
    then dom (adj_of G n) ∩ (X ∩ dom (g_node G))
    else ∅.
Proof.
  apply set_eq. intros v. fold (has_edge (subgraph G X) n v).
  rewrite subgraph_has_edge. case_decide as Hn.
  - unfold has_edge. set_solver.
  - rewrite elem_of_empty. tauto.
Qed.

Lemma subgraph_node_lookup G X n :
  n ∈ X → g_node (subgraph G X) !! n = g_node G !! n.
Proof.
  intros Hn. simpl. rewrite map_lookup_filter.
  destruct (g_node G !! n) as [d |] eqn:E; [| done]. simpl.
  rewrite option_guard_True; [done |].
  apply elem_of_intersection. split; [done |]. by apply elem_of_dom.
Qed.

(** The type of a node is the same in the subgraph. *)
Lemma subgraph_node_type G X n :
  n ∈ nodes (subgraph G X) → node_type (subgraph G X) n = node_type G n.
Proof.
  rewrite elem_of_nodes, subgraph_node_dom. intros [Hn _]%elem_of_intersection.
  unfold node_type. by rewrite subgraph_node_lookup.
Qed.

(** A node all of whose neighbours are kept keeps its adjacency. *)
Lemma subgraph_adj_of_full G X n :
  wf G → n ∈ X → n ∈ dom (g_node G) → (∀ v, has_edge G n v → v ∈ X) →
  adj_of (subgraph G X) n = adj_of G n.
Proof.
  intros [_ Hc] Hn Hnode Hall. rewrite adj_of_subgraph.
  rewrite decide_True by set_solver.
  apply map_filter_id. intros v d Hv. simpl.
  assert (has_edge G n v) as He by (apply has_edge_lookup; eauto).
  apply elem_of_intersection. split; [by apply Hall | by eapply Hc].
Qed.

Lemma subgraph_degree_le G X n : degree (subgraph G X) n ≤ degree G n.
Proof.
  rewrite !degree_dom, subgraph_adj_dom. case_decide as Hn.
  - assert (size (dom (adj_of G n) ∩ (X ∩ dom (g_node G)))
            ≤ size (dom (adj_of G n))) by (apply subseteq_size; set_solver).
    destruct (decide (n ∈ dom (adj_of G n) ∩ (X ∩ dom (g_node G)))) as [Hl | Hl].
    + rewrite decide_True by set_solver. lia.
    + case_decide; lia.
  - rewrite size_empty. rewrite decide_False by set_solver. lia.
Qed.

(** Keeping all the nodes gives the graph back. *)
Lemma subgraph_full G X : wf G → dom (g_node G) ⊆ X → subgraph G X = G.
Proof.
  intros [Hd Hc] HX. apply graph_eq; simpl.
  - apply map_filter_id. intros n d Hn. simpl.
    apply (elem_of_dom_2 (g_node G)) in Hn. set_solver.
  - rewrite map_filter_id.
    + rewrite <- (map_fmap_id (g_adj G)) at 2.
      apply map_fmap_ext. intros n m Hn. simpl.
      apply map_filter_id. intros v d Hv. simpl.
      assert (has_edge G n v) as He.
      { apply has_edge_lookup. rewrite (adj_of_Some _ _ _ Hn). eauto. }
      apply Hc in He. set_solver.
    + intros n m Hn. simpl.
      apply (elem_of_dom_2 (g_adj G)) in Hn. rewrite Hd in Hn. set_solver.
Qed.

Lemma degree_ext G G' n :
  dom (adj_of G n) = dom (adj_of G' n) → degree G n = degree G' n.
Proof. intros H. by rewrite !degree_dom, H. Qed.

Lemma number_of_edges_ext G G' :
  dom (g_node G) = dom (g_node G') →
  (∀ n, dom (adj_of G n) = dom (adj_of G' n)) →
  number_of_edges G = number_of_edges G'.
Proof.
  intros Hn Ha. unfold number_of_edges, nodes. rewrite Hn. do 2 f_equal.
  apply list_fmap_ext. intros _ n _. by apply degree_ext.
Qed.

Lemma nodes_to_draw_ext G G' hubs :
  (∀ u v, has_edge G u v ↔ has_edge G' u v) →
  nodes_to_draw G hubs = nodes_to_draw G' hubs.
Proof.
  intros He. apply set_eq. intros n. rewrite !elem_of_nodes_to_draw.
  by setoid_rewrite He.
Qed.

End subgraph_facts.

(** X4. The attribute passed to [add_edge] plays no part in what a tab
    shows: built from the same rows with another edge attribute (tab 2
    against tab 1), the graph has the same node dictionary, the same
    edges and degrees, the same hubs and the same three numbers. *)
Theorem edge_label_irrelevant k1 k2 rel rel' rows mode k t :
  let G := build_graph k1 k2 rel rows in
  let G' := build_graph k1 k2 rel' rows in
  g_node G = g_node G'
  ∧ (∀ u v, has_edge G u v ↔ has_edge G' u v)
  ∧ (∀ n, degree G n = degree G' n)
  ∧ high_degree mode k G t = high_degree mode k G' t
  ∧ (degree_filter mode k G t).2 = (degree_filter mode k G' t).2.
Proof.
  intros G G'.
  assert (g_node G = g_node G') as Hnode.
  { apply map_eq. intros n. unfold G, G'. by rewrite !build_graph_node_lookup. }
  assert (∀ n, dom (adj_of G n) = dom (adj_of G' n)) as Hadj.
  { intros n. unfold G, G'. by rewrite !build_graph_adj_dom. }
  assert (∀ u v, has_edge G u v ↔ has_edge G' u v) as Hedge.
  { intros u v. unfold has_edge. by rewrite Hadj. }
  assert (∀ n, degree G n = degree G' n) as Hdeg.
  { intros n. by apply degree_ext. }
  assert (high_degree mode k G t = high_degree mode k G' t) as Hhubs.
  { unfold high_degree, nodes, node_type. rewrite Hnode.
    apply list_filter_iff. intros n. by rewrite Hdeg. }
  split; [exact Hnode |]. split; [exact Hedge |]. split; [exact Hdeg |].
  split; [exact Hhubs |].
  unfold degree_filter. cbn [snd]. rewrite <- Hhubs.
  rewrite <- (nodes_to_draw_ext G G') by exact Hedge.
  set (X := nodes_to_draw G (high_degree mode k G t)).
  assert (number_of_nodes (subgraph G X) = number_of_nodes (subgraph G' X)) as ->.
  { rewrite !number_of_nodes_subgraph. rewrite Hnode. reflexivity. }
  assert (number_of_edges (subgraph G X) = number_of_edges (subgraph G' X)) as ->.
  { apply number_of_edges_ext.
    - rewrite !subgraph_node_dom. rewrite Hnode. reflexivity.
    - intros n. rewrite !subgraph_adj_dom. rewrite Hnode, Hadj. reflexivity. }
  reflexivity.
Qed.

(** ** The degree filter: edge cases and what the drawing keeps *)

Lemma high_degree_nil mode k G t :
  (∀ n, n ∈ nodes G → ¬ (meets mode (degree G n) t = true ∧ node_type G n = Some k)) →
  high_degree mode k G t = [].
Proof.
  intros Hnone. destruct (high_degree mode k G t) as [| h l] eqn:E; [done |].
  assert (h ∈ high_degree mode k G t) as Hh by (rewrite E; by left).
  apply elem_of_high_degree in Hh as (Hn & Hm & Hk).
  destruct (Hnone h); [by apply elem_of_nodes | done].
Qed.

Lemma degree_filter_no_hubs mode k G t :
  high_degree mode k G t = [] →
  nodes (degree_filter mode k G t).1 = []
  ∧ (degree_filter mode k G t).2 = mkStats 0 0 0.
Proof.
  intros Hnil. unfold degree_filter. cbn [fst snd]. rewrite Hnil.
  change (nodes_to_draw G []) with (∅ : gset string).
  assert (nodes (subgraph G ∅) = []) as Hnodes.
  { unfold nodes. rewrite subgraph_node_dom.
    assert ((∅ : gset string) ∩ dom (g_node G) = ∅) as -> by set_solver.
    apply elements_empty. }
  split; [exact Hnodes |].
  unfold number_of_edges. rewrite Hnodes.
  rewrite number_of_nodes_subgraph.
  assert ((∅ : gset string) ∩ dom (g_node G) = ∅) as -> by set_solver.
  rewrite size_empty. reflexivity.
Qed.

(** X5. A threshold no degree reaches gives the empty drawing, not an
    error: no hub, a subgraph without nodes, and the three numbers 0. *)
Theorem degree_filter_above_max mode k G t :
  (∀ n, n ∈ nodes G → (Z.of_nat (degree G n) < t)%Z) →
  high_degree mode k G t = []
  ∧ nodes (degree_filter mode k G t).1 = []
  ∧ (degree_filter mode k G t).2 = mkStats 0 0 0.
Proof.
  intros Hlt.
  assert (high_degree mode k G t = []) as Hnil.
  { apply high_degree_nil. intros n Hn [Hm _]. apply Hlt in Hn.
    destruct mode; [apply meets_Strict in Hm | apply meets_Inclusive in Hm]; lia. }
  split; [exact Hnil |]. by apply degree_filter_no_hubs.
Qed.

Lemma degree_filter_above_max_witness :
  (degree_filter Strict Kip (tab1_graph ex_rows) 4).2 = mkStats 0 0 0.
Proof.
  apply (degree_filter_above_max Strict Kip (tab1_graph ex_rows) 4).
  apply Forall_forall. apply (bool_decide_unpack _). by vm_compute.
Defined.

(** X6. The comparison [>] of tab 1 at a threshold is the comparison [>=]
    of tabs 2 and 3 at the next integer: asked for the IPs connected to
    at least [t] domains, tab 1 shows those connected to at least
    [t + 1]. *)
Theorem strict_is_inclusive_next k G t :
  high_degree Strict k G t = high_degree Inclusive k G (t + 1)
  ∧ degree_filter Strict k G t = degree_filter Inclusive k G (t + 1)
  ∧ (∀ n, n ∈ high_degree_ips G t
          ↔ n ∈ nodes G ∧ node_type G n = Some Kip
            ∧ (Z.of_nat (degree G n) >= t + 1)%Z).
Proof.
  assert (high_degree Strict k G t = high_degree Inclusive k G (t + 1)) as Hh.
  { unfold high_degree. apply list_filter_iff. intros n.
    rewrite meets_Strict, meets_Inclusive. intuition lia. }
  split; [exact Hh |]. split.
  - unfold degree_filter. rewrite Hh. reflexivity.
  - intros n. unfold high_degree_ips.
    rewrite elem_of_high_degree, elem_of_nodes, meets_Strict. intuition lia.
Qed.

(** X7. In the drawing every hub keeps all its edges, and no node has
    more edges than in the full graph: for a built graph, the neighbours
    and the degree of a hub are the same in the subgraph, and the degree
    of any node of the subgraph is at most its degree in the graph. *)
Theorem hubs_keep_their_edges k1 k2 rel rows mode k t :
  let G := build_graph k1 k2 rel rows in
  let sub := (degree_filter mode k G t).1 in
  (∀ h, h ∈ high_degree mode k G t →
        h ∈ nodes sub
        ∧ adj_of sub h = adj_of G h
        ∧ degree sub h = degree G h)
  ∧ (∀ n, degree sub n ≤ degree G n)
  ∧ (∀ n, n ∈ nodes sub → node_type sub n = node_type G n).
Proof.
  intros G sub.
  assert (wf G) as HG by apply build_graph_wf.
  split_and!.
  - intros h Hh.
    assert (h ∈ nodes_to_draw G (high_degree mode k G t)) as Hw.
    { apply elem_of_nodes_to_draw. by left. }
    assert (h ∈ dom (g_node G)) as Hn.
    { by apply elem_of_high_degree in Hh as [? _]. }
    assert (adj_of sub h = adj_of G h) as Hadj.
    { unfold sub, degree_filter. cbn [fst].
      apply subgraph_adj_of_full; [done | done | done |].
      intros v Hv. apply elem_of_nodes_to_draw. right. eauto. }
    split_and!; [| exact Hadj |].
    + rewrite elem_of_nodes. unfold sub, degree_filter. cbn [fst].
      rewrite subgraph_node_dom. set_solver.
    + unfold degree. rewrite Hadj. reflexivity.
  - intros n. unfold sub, degree_filter. cbn [fst]. apply subgraph_degree_le.
  - intros n. unfold sub, degree_filter. cbn [fst]. apply subgraph_node_type.
Qed.

(** X8. The three numbers a tab writes are consistent with each other
    and with the full graph: there are at least as many nodes shown as
    hubs, every hub being shown once, and no more nodes or edges than the
    built graph has. *)
Theorem stats_consistent k1 k2 rel rows mode k t :
  let G := build_graph k1 k2 rel rows in
  let s := (degree_filter mode k G t).2 in
  hubs_shown s ≤ nodes_shown s
  ∧ nodes_shown s ≤ number_of_nodes G
  ∧ edges_shown s ≤ number_of_edges G.
Proof.
  intros G s.
  assert (wf G) as HG by apply build_graph_wf.
  pose proof (nodes_to_draw_nodes mode k G t HG) as Hsub.
  unfold s, degree_filter. cbn [snd hubs_shown nodes_shown edges_shown].
  set (X := nodes_to_draw G (high_degree mode k G t)) in *.
  split_and!.
  - rewrite number_of_nodes_subgraph.
    assert (X ∩ dom (g_node G) = X) as -> by set_solver.
    change (size X) with (length (elements X)).
    apply submseteq_length, NoDup_submseteq; [apply NoDup_high_degree |].
    intros h Hh. apply elem_of_elements. unfold X.
    apply elem_of_nodes_to_draw. by left.
  - rewrite number_of_nodes_subgraph. unfold number_of_nodes.
    rewrite <- size_dom. apply subseteq_size. set_solver.
  - rewrite <- (subgraph_full G (dom (g_node G)) HG) at 2 by done.
    by apply number_of_edges_subgraph_mono.
Qed.

(** X9. With the inclusive comparison and a threshold of at most 1 (the
    smallest the input box allows), every node of the kind is a hub, since
    no node of a built graph is isolated. If moreover no value occurs in
    both columns and the kind is one of the builder's two, the drawing is
    the whole graph. *)
Theorem inclusive_threshold_one k1 k2 rel rows k t :
  (t ≤ 1)%Z →
  let G := build_graph k1 k2 rel rows in
  (∀ n, n ∈ high_degree Inclusive k G t ↔ n ∈ nodes G ∧ node_type G n = Some k)
  ∧ ((∀ r r', r ∈ rows → r' ∈ rows → r.1 ≠ r'.2) → k = k1 ∨ k = k2 →
     (degree_filter Inclusive k G t).1 = G).
Proof.
  intros Ht G.
  assert (∀ n, n ∈ nodes G → 1 ≤ degree G n) as Hdeg.
  { intros n. apply build_graph_degree_pos. }
  assert (∀ n, n ∈ high_degree Inclusive k G t
               ↔ n ∈ nodes G ∧ node_type G n = Some k) as Hhubs.
  { intros n. rewrite elem_of_high_degree, meets_Inclusive, <- elem_of_nodes.
    split; [tauto |]. intros [Hn Hk]. apply Hdeg in Hn as Hd. split_and!; [done | lia | done]. }
  split; [exact Hhubs |].
  intros Hdisj Hk. unfold degree_filter. cbn [fst].
  apply subgraph_full; [apply build_graph_wf |].
  intros n Hn. apply elem_of_nodes_to_draw.
  apply build_graph_node_dom in Hn as ([a b] & Hrow & Hn). simpl in Hn.
  destruct (disjoint_column_kinds k1 k2 rel rows a b Hdisj Hrow) as [Ha Hb].
  assert (a ∈ nodes G ∧ b ∈ nodes G) as [Hna Hnb].
  { rewrite !elem_of_nodes. unfold G. rewrite !build_graph_node_dom.
    split; exists (a, b); auto. }
  assert (has_edge G a b ∧ has_edge G b a) as [Hab Hba].
  { unfold G. rewrite !build_graph_has_edge. auto. }
  destruct Hk as [-> | ->].
  - assert (a ∈ high_degree Inclusive k1 G t) as Hh by by apply Hhubs.
    destruct Hn as [-> | ->]; [by left | right; eauto].
  - assert (b ∈ high_degree Inclusive k2 G t) as Hh by by apply Hhubs.
    destruct Hn as [-> | ->]; [right; eauto | by left].
Qed.

Lemma inclusive_threshold_one_witness :
  "d2" ∈ high_degree_domains (tab2_graph ex_rows) 1.
Proof.
  pose proof (inclusive_threshold_one Kdomain Kip None ex_rows Kdomain 1
                ltac:(lia)) as H.
  cbv zeta in H. destruct H as [H _]. apply H.
  split; [apply (bool_decide_unpack _) |]; by vm_compute.
Defined.

Lemma apply_fmap {A B} (f : A → Py.result B) (g : A → B) (col : list A) :
  (∀ x, x ∈ col → f x = Py.Ok (g x)) → Pd.apply f col = Py.Ok (g <$> col).
Proof.
  induction col as [| x col IH]; intros Hf; [done |]. simpl.
  rewrite Hf by (by left). simpl. rewrite IH; [done |].
  intros y Hy. apply Hf. by right.
Qed.

(** X10. The colour loop of a tab never fails on the subgraph it is given
    and never uses the gray fallback: every node of the drawing is tomato
    when it has the kind of the tab's second column and sky blue
    otherwise, one colour per node. *)
Theorem drawing_colours first rel rows mode k t :
  let G := build_graph Kdomain first rel rows in
  let sub := (degree_filter mode k G t).1 in
  let colour_of := λ n, if decide (node_type G n = Some first) then tomato
                        else skyblue in
  node_colors first sub = Py.Ok (colour_of <$> nodes sub)
  ∧ (∀ cs, node_colors first sub = Py.Ok cs →
           length cs = number_of_nodes sub ∧ gray ∉ cs).
Proof.
  intros G sub colour_of.
  assert (node_colors first sub = Py.Ok (colour_of <$> nodes sub)) as Hcs.
  { unfold node_colors. apply apply_fmap. intros n Hn.
    unfold type_of. unfold sub, degree_filter in *. cbn [fst] in *.
    rewrite subgraph_node_type by done.
    assert (n ∈ nodes G) as HnG.
    { rewrite elem_of_nodes in *. rewrite subgraph_node_dom in Hn. set_solver. }
    destruct (build_graph_type_of Kdomain first rel rows n HnG) as [Hk | Hk];
      unfold type_of in Hk; fold G in Hk;
      destruct (node_type G n) as [ty |] eqn:E; simplify_eq/=;
      unfold colour_of; rewrite E; repeat case_decide; congruence. }
  split; [exact Hcs |].
  intros cs Hcs'. rewrite Hcs in Hcs'. simplify_eq. split.
  - rewrite length_fmap. unfold number_of_nodes, nodes.
    rewrite <- size_dom. reflexivity.
  - intros (n & Hc & _)%list_elem_of_fmap. unfold colour_of in Hc.
    by case_decide.
Qed.

(** ** Counting the nodes and the edges of a built graph *)

Section counting.

Implicit Types (f g : string → nat) (l : list string) (X Y : gset string).

Lemma sum_list_fmap_perm f l1 l2 :
  l1 ≡ₚ l2 → sum_list (f <$> l1) = sum_list (f <$> l2).
Proof. induction 1; csimpl; lia. Qed.

Lemma sum_list_fmap_app f l1 l2 :
  sum_list (f <$> l1 ++ l2) = sum_list (f <$> l1) + sum_list (f <$> l2).
Proof. induction l1; csimpl; lia. Qed.

Lemma sum_list_fmap_add f g l :
  sum_list ((λ x, f x + g x) <$> l) = sum_list (f <$> l) + sum_list (g <$> l).
Proof. induction l; csimpl; lia. Qed.

Lemma sum_list_fmap_zero f l :
  (∀ x, x ∈ l → f x = 0) → sum_list (f <$> l) = 0.
Proof.
  induction l as [| x l IH]; intros Hf; csimpl; [done |].
  rewrite Hf by (by left). rewrite IH; [done |]. intros y Hy. apply Hf. by right.
Qed.

Lemma sum_list_indicator (a : string) l :
  NoDup l → a ∈ l →
  sum_list ((λ n, if decide (n = a) then 1 else 0) <$> l) = 1.
Proof.
  induction 1 as [| x l Hx Hl IH]; intros Ha; [by apply elem_of_nil in Ha |].
  csimpl. destruct (decide (x = a)) as [-> | Hne].
  - rewrite sum_list_fmap_zero; [done |].
    intros y Hy. rewrite decide_False; [done |]. by intros ->.
  - rewrite IH; [done |]. apply elem_of_cons in Ha as [-> | Ha]; done.
Qed.

Lemma sum_list_elements_subseteq f X Y :
  X ⊆ Y → (∀ n, n ∈ Y → n ∉ X → f n = 0) →
  sum_list (f <$> elements Y) = sum_list (f <$> elements X).
Proof.
  intros HXY Hzero.
  assert (Y = X ∪ (Y ∖ X)) as HY.
  { apply set_eq. intros n. destruct (decide (n ∈ X)); set_solver. }
  rewrite HY at 1.
  rewrite (sum_list_fmap_perm f _ _ (elements_disj_union X (Y ∖ X) ltac:(set_solver))).
  rewrite sum_list_fmap_app.
  rewrite (sum_list_fmap_zero f (elements (Y ∖ X))); [lia |].
  intros n Hn%elem_of_elements. apply Hzero; set_solver.
Qed.

Lemma partners_snoc rows a b n :
  partners (rows ++ [(a, b)]) n
  = partners rows n
    ∪ ((if decide (n = a) then {[b]} else ∅)
       ∪ (if decide (n = b) then {[a]} else ∅)).
Proof.
  apply set_eq. intros v.
  rewrite elem_of_union, !elem_of_partners, !elem_of_app, !list_elem_of_singleton.
  repeat case_decide; set_solver.
Qed.

End counting.

Lemma build_graph_degree_snoc_new k1 k2 rel rows a b n :
  ¬ ((a, b) ∈ rows ∨ (b, a) ∈ rows) →
  degree (build_graph k1 k2 rel (rows ++ [(a, b)])) n
  = degree (build_graph k1 k2 rel rows) n
    + ((if decide (n = a) then 1 else 0) + (if decide (n = b) then 1 else 0)).
Proof.
  intros Hnew. rewrite !build_graph_degree, partners_snoc.
  assert (b ∉ partners rows a) as Hb by (rewrite elem_of_partners; tauto).
  assert (a ∉ partners rows b) as Ha by (rewrite elem_of_partners; tauto).
  assert (∀ x, (x, x) ∈ rows ++ [(a, b)] ↔ (x, x) ∈ rows ∨ (x = a ∧ x = b)) as Hloop.
  { intros x. rewrite elem_of_app, list_elem_of_singleton. naive_solver. }
  rewrite size_union.
  2:{ intros v Hv HD. repeat case_decide; subst; set_solver. }
  assert (∀ x, ((x, x) ∈ rows) → x ≠ a ∨ x ≠ b) as Hold.
  { intros x Hx. destruct (decide (x = a)) as [-> | ?]; [| by left].
    right. intros ->. tauto. }
  destruct (decide (n = a)) as [Hna | Hna]; destruct (decide (n = b)) as [Hnb | Hnb].
  - subst a b. rewrite union_idemp_L, size_singleton.
    rewrite (decide_True (P := (n, n) ∈ rows ++ _)) by (apply Hloop; auto).
    rewrite (decide_False (P := (n, n) ∈ rows)) by tauto. lia.
  - subst a. rewrite union_empty_r_L, size_singleton.
    assert ((n, n) ∈ rows ++ [(n, b)] ↔ (n, n) ∈ rows) as Hl
      by (rewrite Hloop; naive_solver).
    rewrite (decide_ext _ _ _ _ Hl). lia.
  - subst b. rewrite union_empty_l_L, size_singleton.
    assert ((n, n) ∈ rows ++ [(a, n)] ↔ (n, n) ∈ rows) as Hl
      by (rewrite Hloop; naive_solver).
    rewrite (decide_ext _ _ _ _ Hl). lia.
  - rewrite union_empty_r_L, size_empty.
    assert ((n, n) ∈ rows ++ [(a, b)] ↔ (n, n) ∈ rows) as Hl
      by (rewrite Hloop; naive_solver).
    rewrite (decide_ext _ _ _ _ Hl). lia.
Qed.

Lemma build_graph_node_dom_snoc k1 k2 rel rows a b :
  dom (g_node (build_graph k1 k2 rel (rows ++ [(a, b)])))
  = {[a; b]} ∪ dom (g_node (build_graph k1 k2 rel rows)).
Proof. rewrite build_graph_snoc. apply build_step_node_dom. Qed.

(** X11. The counts of a built graph. The number of nodes is the number
    of distinct values in the two columns. The number of edges grows by
    one with each row whose pair of cells was not yet read, in either
    order, and not at all with a row read before: repeated reports of a
    domain on an address count as one edge, so there are at most as many
    edges as rows. *)
Theorem built_graph_counts k1 k2 rel rows a b :
  number_of_nodes (build_graph k1 k2 rel rows)
  = size (list_to_set (C := gset string) (rows.*1 ++ rows.*2))
  ∧ number_of_edges (build_graph k1 k2 rel []) = 0
  ∧ number_of_edges (build_graph k1 k2 rel (rows ++ [(a, b)]))
    = number_of_edges (build_graph k1 k2 rel rows)
      + (if decide ((a, b) ∈ rows ∨ (b, a) ∈ rows) then 0 else 1)
  ∧ number_of_edges (build_graph k1 k2 rel rows) ≤ length rows.
Proof.
  assert (∀ rows a b,
    number_of_edges (build_graph k1 k2 rel (rows ++ [(a, b)]))
    = number_of_edges (build_graph k1 k2 rel rows)
      + (if decide ((a, b) ∈ rows ∨ (b, a) ∈ rows) then 0 else 1)) as Hstep.
  { clear rows a b. intros rows a b. case_decide as Hold.
    - rewrite Nat.add_0_r. apply number_of_edges_ext.
      + rewrite build_graph_node_dom_snoc.
        assert (a ∈ dom (g_node (build_graph k1 k2 rel rows))
                ∧ b ∈ dom (g_node (build_graph k1 k2 rel rows))) as [Ha Hb].
        { rewrite !build_graph_node_dom.
          destruct Hold as [H | H]; split; eexists; (split; [exact H |]); auto. }
        set_solver.
      + intros n. rewrite !build_graph_adj_dom, partners_snoc.
        apply set_eq. intros v. rewrite !elem_of_union, !elem_of_partners.
        repeat case_decide; subst; set_solver.
    - unfold number_of_edges, nodes.
      rewrite (list_fmap_ext
                 (degree (build_graph k1 k2 rel (rows ++ [(a, b)])))
                 (λ n, degree (build_graph k1 k2 rel rows) n
                       + ((if decide (n = a) then 1 else 0)
                          + (if decide (n = b) then 1 else 0)))).
      2:{ intros i n _. by apply build_graph_degree_snoc_new. }
      rewrite !sum_list_fmap_add.
      rewrite (sum_list_indicator a);
        [| apply NoDup_elements
         | apply elem_of_elements; rewrite build_graph_node_dom_snoc; set_solver].
      rewrite (sum_list_indicator b);
        [| apply NoDup_elements
         | apply elem_of_elements; rewrite build_graph_node_dom_snoc; set_solver].
      rewrite (sum_list_elements_subseteq _
                 (dom (g_node (build_graph k1 k2 rel rows)))).
      + replace (sum_list (degree (build_graph k1 k2 rel rows)
                    <$> elements (dom (g_node (build_graph k1 k2 rel rows)))) + (1 + 1))
          with (sum_list (degree (build_graph k1 k2 rel rows)
                    <$> elements (dom (g_node (build_graph k1 k2 rel rows)))) + 1 * 2)
          by lia.
        by rewrite Nat.div_add.
      + rewrite build_graph_node_dom_snoc. set_solver.
      + intros n _ Hn. rewrite build_graph_degree.
        assert (partners rows n = ∅) as ->.
        { apply set_eq. intros v. rewrite elem_of_partners, elem_of_empty.
          rewrite build_graph_node_dom in Hn. split; [| done].
          intros [H | H]; apply Hn; eexists; (split; [exact H |]); auto. }
        rewrite size_empty. rewrite decide_False; [done |].
        intros H. rewrite build_graph_node_dom in Hn.
        apply Hn. eexists; (split; [exact H |]); auto. }
  split_and!.
  - unfold number_of_nodes. rewrite <- size_dom. f_equal.
    apply set_eq. intros n.
    rewrite build_graph_node_dom, elem_of_list_to_set, elem_of_app,
      !list_elem_of_fmap.
    split.
    + intros (row & Hrow & [-> | ->]); [left | right]; eauto.
    + intros [(row & -> & Hrow) | (row & -> & Hrow)]; exists row; auto.
  - reflexivity.
  - apply Hstep.
  - clear a b. induction rows as [| [a b] rows IH] using rev_ind; [done |].
    rewrite Hstep, length_app. simpl. case_decide; lia.
Qed.

(** ** From the file to the rows of the builders *)

Lemma omap_filter_None {A B} (f : A → option B) (P : A → Prop)
    `{!∀ x, Decision (P x)} (l : list A) :
  (∀ x, ¬ P x → f x = None) → omap f (filter P l) = omap f l.
Proof.
  intros Hf. induction l as [| x l IH]; [done |].
  rewrite filter_cons. destruct (decide (P x)) as [HP | HP]; csimpl.
  - by rewrite IH.
  - by rewrite (Hf x HP), IH.
Qed.

Lemma omap_Forall2 {A B C} (R : A → B → Prop) (f : B → option C)
    (g : A → option C) (l : list A) (l' : list B) :
  Forall2 R l l' → (∀ x y, R x y → f y = g x) → omap f l' = omap g l.
Proof.
  intros Hall Hfg. induction Hall as [| x y l l' HR Hall IH]; [done |].
  csimpl. by rewrite (Hfg x y HR), IH.
Qed.

Lemma cells_dropna_all c1 c2 df :
  cells c1 c2 (dropna [c1; c2] df) = cells c1 c2 df.
Proof.
  unfold cells, dropna. apply omap_filter_None.
  intros row Hrow. rewrite Forall_cons, Forall_singleton in Hrow.
  destruct (cell c1 row) as [a |] eqn:E1; [| done]. simpl.
  destruct (cell c2 row) as [b |] eqn:E2; [| done].
  destruct Hrow. split; eauto.
Qed.

(** X12. What the builders of the tabs are fed, read on the file. Tab 1
    and tab 2 read, in the order of the file, one pair for every record
    among the first 300 whose URL the parser accepts and whose [details]
    list has a first entry with an address: the network location of the
    URL and the address of that first entry (later entries are not
    looked at). Tab 3 reads the network location and the target of every
    such record that has a target. Every other record gives no pair. *)
Theorem builder_rows_of_file
    (urlparse : string → Py.result ParseResult) (file : list Record_) :
  ∃ df, load_data urlparse file = Py.Ok df
    ∧ cells col_domain col_ip (df1 df)
      = omap (λ rec, match urlparse (url rec), details rec with
                     | Py.Ok r, Some (d :: _) =>
                         ip ← ip_address d; Some (netloc r, ip)
                     | _, _ => None
                     end) (take 300 file)
    ∧ cells col_domain col_ip (df2 df) = cells col_domain col_ip (df1 df)
    ∧ cells col_domain col_target (df3 df)
      = omap (λ rec, match urlparse (url rec) with
                     | Py.Ok r => t ← target rec; Some (netloc r, t)
                     | Py.Raise _ => None
                     end) (take 300 file).
Proof.
  destruct (load_data_total urlparse file) as (df & Hdf & Hall).
  exists df. split; [exact Hdf |].
  unfold df1, df2, df3. rewrite !cells_dropna_all.
  split_and!; [| done |].
  - unfold cells. apply (omap_Forall2 _ _ _ _ _ Hall).
    intros rec row Hn. unfold normalise, extract_domain in Hn.
    destruct (urlparse (url rec)) as [r | e]; simplify_eq/=.
    + destruct (details rec) as [[| d ds] |]; simpl; try done.
    + done.
  - unfold cells. apply (omap_Forall2 _ _ _ _ _ Hall).
    intros rec row Hn. unfold normalise, extract_domain in Hn.
    destruct (urlparse (url rec)) as [r | e]; simplify_eq/=; done.
Qed.

(** ** The frequency table and the month list *)

Lemma count_sum (d vals : list string) :
  NoDup d → (∀ x, x ∈ vals → x ∈ d) →
  sum_list ((λ v, length (filter (λ w, w = v) vals)) <$> d) = length vals.
Proof.
  intros Hd. induction vals as [| x vals IH]; intros Hin.
  - apply sum_list_fmap_zero. done.
  - rewrite (list_fmap_ext _
      (λ v, (if decide (v = x) then 1 else 0)
            + length (filter (λ w, w = v) vals))).
    2:{ intros _ v _. rewrite filter_cons.
        destruct (decide (x = v)) as [-> | Hne].
        - by rewrite decide_True.
        - by rewrite decide_False by congruence. }
    rewrite sum_list_fmap_add, sum_list_indicator, IH; [done | | done |].
    + intros y Hy. apply Hin. by right.
    + apply Hin. by left.
Qed.

Lemma value_counts_keys_NoDup (col : list (option string)) :
  NoDup (Pd.value_counts col).*1.
Proof.
  unfold Pd.value_counts. rewrite sort_desc_Permutation.
  assert ((Pd.counts col).*1 = Pd.drop_duplicates (omap id col)) as ->.
  { unfold Pd.counts. rewrite <- list_fmap_compose.
    rewrite <- (list_fmap_id (Pd.drop_duplicates _)) at 2.
    by apply list_fmap_ext. }
  apply NoDup_drop_duplicates.
Qed.

Lemma value_counts_sum (col : list (option string)) :
  sum_list (Pd.value_counts col).*2 = length (filter is_Some col).
Proof.
  assert (length (omap id col) = length (filter is_Some col)) as Hlen.
  { induction col as [| [v |] col IH]; [done | |].
    - change (omap id (Some v :: col)) with (v :: omap id col).
      rewrite filter_cons. rewrite decide_True by eauto. simpl. by rewrite IH.
    - change (omap id (None :: col)) with (omap id col).
      rewrite filter_cons. rewrite decide_False by (by intros []). done. }
  unfold Pd.value_counts. rewrite sort_desc_Permutation, <- Hlen.
  unfold Pd.counts. rewrite <- list_fmap_compose.
  apply count_sum; [apply NoDup_drop_duplicates |].
  intros x Hx. by apply elem_of_drop_duplicates.
Qed.

Lemma df_month_present_count file key :
  length (filter is_Some (t_target <$> df_month (load_data_with_time file) key))
  = length (filter (λ rec, to_period_M (submission_time rec) = key
                           ∧ is_Some (target rec)) file).
Proof.
  unfold df_month, load_data_with_time.
  induction file as [| rec file IH]; [done |]. csimpl.
  rewrite !filter_cons. simpl.
  destruct (decide (to_period_M (submission_time rec) = key)) as [Hk | Hk].
  - csimpl. rewrite filter_cons. simpl.
    destruct (decide (is_Some (target rec))) as [Ht | Ht].
    + rewrite decide_True by done. simpl. by rewrite IH.
    + rewrite decide_False by tauto. done.
  - rewrite decide_False by tauto. done.
Qed.

(** X13. The frequency table tab 4 computes for a month, read on the
    file: a target has a line exactly when some record of that month has
    it, the line carrying the number of these records; no target has two
    lines; the lines are in descending order of their counts; and the
    counts add up to the number of records of the month that have a
    target. *)
Theorem target_counts_table (file : list Record_) (key : Z) :
  let table := target_counts (load_data_with_time file) key in
  (∀ name n,
     (name, n) ∈ table
     ↔ 0 < n
       ∧ n = length (filter (λ rec, to_period_M (submission_time rec) = key
                                    ∧ target rec = Some name) file))
  ∧ NoDup table.*1
  ∧ Pd.sorted_desc (λ kv, Z.of_nat kv.2) table
  ∧ sum_list table.*2
    = length (filter (λ rec, to_period_M (submission_time rec) = key
                             ∧ is_Some (target rec)) file).
Proof.
  intros table. unfold table, target_counts. split_and!.
  - intros name n.
    rewrite value_counts_elem_of, elem_of_length_filter, df_month_count.
    split; intros [? ?]; subst; done.
  - apply value_counts_keys_NoDup.
  - apply sort_desc_sorted.
  - by rewrite value_counts_sum, df_month_present_count.
Qed.

Lemma sorted_desc_head {A} (key : A → Z) (l : list A) x y :
  Pd.sorted_desc key l → list.head l = Some x → y ∈ l → (key y ≤ key x)%Z.
Proof.
  destruct 1 as [| z l Hl Hz]; intros Hh Hy; simplify_eq/=.
  apply elem_of_cons in Hy as [-> | Hy]; [done |].
  rewrite Forall_forall in Hz. by apply Hz.
Qed.

Lemma month_lookup_elem_of df_time k lbl :
  (k, lbl) ∈ month_lookup df_time
  ↔ ∃ r, r ∈ df_time ∧ month_key r = k ∧ month_label r = lbl.
Proof.
  unfold month_lookup.
  rewrite elem_of_sort_desc, elem_of_drop_duplicates, list_elem_of_fmap.
  split; intros (r & H1 & H2); exists r; [naive_solver | ].
  destruct H2 as [<- <-]. done.
Qed.

(** X14. The list of months offered for selection has no repeated line,
    holds exactly the months (key and label) of the records, and is in
    descending order of the month key, so that its first line is the
    most recent month of the file. *)
Theorem month_lookup_sorted (df_time : list TimeRow) :
  let lookup := month_lookup df_time in
  NoDup lookup
  ∧ Pd.sorted_desc fst lookup
  ∧ (∀ k lbl, (k, lbl) ∈ lookup
              ↔ ∃ r, r ∈ df_time ∧ month_key r = k ∧ month_label r = lbl)
  ∧ (∀ first r, list.head lookup = Some first → r ∈ df_time →
                (month_key r ≤ first.1)%Z)
  ∧ (df_time ≠ [] → is_Some (list.head lookup)).
Proof.
  intros lookup. split_and!.
  - unfold lookup, month_lookup. rewrite sort_desc_Permutation.
    apply NoDup_drop_duplicates.
  - apply sort_desc_sorted.
  - apply month_lookup_elem_of.
  - intros first r Hh Hr.
    apply (sorted_desc_head fst lookup first (month_key r, month_label r));
      [apply sort_desc_sorted | done |].
    apply month_lookup_elem_of. eauto.
  - intros Hne. apply head_is_Some. intros Hnil.
    destruct df_time as [| r l]; [done |].
    assert ((month_key r, month_label r) ∈ lookup) as Hin.
    { apply month_lookup_elem_of. exists r. split; [by left | done]. }
    rewrite Hnil in Hin. by apply elem_of_nil in Hin.
Qed.

Lemma most_targeted_total counts : ∃ h, most_targeted counts = Py.Ok h.
Proof.
  unfold most_targeted. destruct (non_other counts) as [| x l].
  - rewrite bool_decide_eq_true_2 by done. eauto.
  - rewrite bool_decide_eq_false_2 by done. simpl. eauto.
Qed.

Lemma selected_key_listed (lookup : list (Z * string)) label :
  label ∈ lookup.*2 →
  ∃ key, selected_key lookup label = Py.Ok key ∧ (key, label) ∈ lookup.
Proof.
  intros ([k l] & -> & Hin)%list_elem_of_fmap. unfold selected_key.
  destruct (filter (λ kl : Z * string, kl.2 = (k, l).2) lookup) as [| kl rest] eqn:E.
  - assert ((k, l) ∈ filter (λ kl : Z * string, kl.2 = (k, l).2) lookup) as Hf
      by by apply list_elem_of_filter.
    rewrite E in Hf. by apply elem_of_nil in Hf.
  - exists kl.1. split; [done |].
    assert (kl ∈ filter (λ kl : Z * string, kl.2 = (k, l).2) lookup) as Hf
      by (rewrite E; by left).
    apply list_elem_of_filter in Hf as [Hl Hkl]. simpl in *.
    rewrite <- Hl. by destruct kl.
Qed.

Lemma selected_key_unlisted (lookup : list (Z * string)) label :
  label ∉ lookup.*2 → selected_key lookup label = Py.Raise Py.IndexError.
Proof.
  intros Hnot. unfold selected_key.
  destruct (filter (λ kl : Z * string, kl.2 = label) lookup) as [| kl rest] eqn:E;
    [done |].
  assert (kl ∈ filter (λ kl : Z * string, kl.2 = label) lookup) as Hf
    by (rewrite E; by left).
  apply list_elem_of_filter in Hf as [Hl Hkl].
  destruct Hnot. apply list_elem_of_fmap. eauto.
Qed.

(** X15. Tab 4 on a label of the month list computes its headline without
    an exception, for the key of a listed month with that label; on a
    label that is not in the list the lookup of the key fails with
    [IndexError]. *)
Theorem tab4_listed_label (file : list Record_) (label : string) :
  let lookup := month_lookup (load_data_with_time file) in
  (label ∈ lookup.*2 →
   ∃ key h, selected_key lookup label = Py.Ok key
            ∧ (key, label) ∈ lookup
            ∧ tab4 file label = Py.Ok h)
  ∧ (label ∉ lookup.*2 → tab4 file label = Py.Raise Py.IndexError).
Proof.
  intros lookup. split.
  - intros Hin. destruct (selected_key_listed lookup label Hin) as (key & Hk & Hl).
    destruct (most_targeted_total
                (target_counts (load_data_with_time file) key)) as [h Hh].
    exists key, h. split_and!; [done | done |].
    unfold tab4. fold lookup. rewrite Hk. simpl. exact Hh.
  - intros Hnot. unfold tab4. fold lookup.
    by rewrite (selected_key_unlisted lookup label Hnot).
Qed.

Lemma month_name_app_inj (m1 m2 : Z) (s1 s2 : string) :
  (1 ≤ m1 ≤ 12)%Z → (1 ≤ m2 ≤ 12)%Z →
  month_name m1 +:+ " " +:+ s1 = month_name m2 +:+ " " +:+ s2 →
  m1 = m2 ∧ s1 = s2.
Proof.
  intros H1 H2.
  assert (m1 = 1 ∨ m1 = 2 ∨ m1 = 3 ∨ m1 = 4 ∨ m1 = 5 ∨ m1 = 6 ∨ m1 = 7
          ∨ m1 = 8 ∨ m1 = 9 ∨ m1 = 10 ∨ m1 = 11 ∨ m1 = 12)%Z as Hm1 by lia.
  assert (m2 = 1 ∨ m2 = 2 ∨ m2 = 3 ∨ m2 = 4 ∨ m2 = 5 ∨ m2 = 6 ∨ m2 = 7
          ∨ m2 = 8 ∨ m2 = 9 ∨ m2 = 10 ∨ m2 = 11 ∨ m2 = 12)%Z as Hm2 by lia.
  clear H1 H2.
  destruct Hm1 as [-> | [-> | [-> | [-> | [-> | [-> | [-> | [-> | [-> | [-> | [-> | ->]]]]]]]]]]];
    destruct Hm2 as [-> | [-> | [-> | [-> | [-> | [-> | [-> | [-> | [-> | [-> | [-> | ->]]]]]]]]]]];
    cbn; intros Heq; by simplify_eq.
Qed.

Lemma strftime_B_Y_inj (t1 t2 : Timestamp) :
  valid_month t1 → valid_month t2 →
  strftime_B_Y t1 = strftime_B_Y t2 → to_period_M t1 = to_period_M t2.
Proof.
  unfold valid_month, strftime_B_Y, to_period_M. intros H1 H2 Heq.
  apply month_name_app_inj in Heq as [Hm Hy]; [| done | done].
  apply (inj pretty) in Hy. by rewrite Hm, Hy.
Qed.

(** X16. For a file whose timestamps have a month between 1 and 12, the
    label and the key of a month determine each other: selecting the
    label of any record's month gives back the month key of that record. *)
Theorem selected_key_round_trip (file : list Record_) (rec : Record_) :
  Forall (λ r, valid_month (submission_time r)) file →
  rec ∈ file →
  selected_key (month_lookup (load_data_with_time file))
               (strftime_B_Y (submission_time rec))
  = Py.Ok (to_period_M (submission_time rec)).
Proof.
  intros Hvalid Hrec. rewrite Forall_forall in Hvalid.
  set (lookup := month_lookup (load_data_with_time file)).
  set (label := strftime_B_Y (submission_time rec)).
  assert (∀ k, (k, label) ∈ lookup → k = to_period_M (submission_time rec)) as Hkey.
  { intros k (r & Hr & <- & Hl)%month_lookup_elem_of.
    unfold load_data_with_time in Hr.
    apply list_elem_of_fmap in Hr as (rec' & -> & Hrec'). simpl in *.
    apply strftime_B_Y_inj; auto. }
  destruct (selected_key_listed lookup label) as (key & Hk & Hin).
  - apply list_elem_of_fmap.
    exists (to_period_M (submission_time rec), label). split; [done |].
    apply month_lookup_elem_of.
    exists (mkTimeRow (target rec) (to_period_M (submission_time rec)) label).
    split; [| done]. unfold load_data_with_time.
    apply list_elem_of_fmap. by exists rec.
  - rewrite Hk. f_equal. by apply Hkey.
Qed.

Lemma selected_key_round_trip_witness :
  selected_key (month_lookup (load_data_with_time ex_file)) "May 2024"
  = Py.Ok 652%Z.
Proof.
  apply (selected_key_round_trip ex_file
           (mkRecord 2 "http://b.example/" (mkTimestamp 2024 5) None (Some "Apple"))).
  - unfold ex_file, valid_month. repeat constructor; simpl; lia.
  - unfold ex_file. set_solver.
Defined.

(** ** The drawing of tab 4 and the tables of the scripts *)

Lemma count_graph_lookup (counts : list (string * nat)) name n :
  NoDup counts.*1 →
  count_graph counts !! name = Some n ↔ (name, n) ∈ counts.
Proof.
  unfold count_graph.
  induction counts as [| [k c] counts IH] using rev_ind; intros Hnd.
  - simpl. rewrite lookup_empty, elem_of_nil. naive_solver.
  - rewrite fmap_app in Hnd. apply NoDup_app in Hnd as (Hnd & Hk & _).
    rewrite foldl_app. simpl. rewrite elem_of_app, list_elem_of_singleton.
    destruct (decide (name = k)) as [-> | Hne].
    + rewrite lookup_insert_eq. split; [intros [= ->]; by right |].
      intros [Hin | [= ->]]; [| done].
      destruct (Hk k); [| by left].
      apply list_elem_of_fmap. by exists (k, n).
    + rewrite lookup_insert_ne by done. rewrite IH by done. naive_solver.
Qed.

(** X17. The drawing of tab 4 has one node for each distinct target of the
    month's records, of size 20 times the number of records with that
    target, so at least 20; the node "Other" is light gray and every
    other node sky blue. *)
Theorem count_drawing_sizes (col : list (option string)) name size c :
  (name, (size, c)) ∈ count_drawing (count_graph (Pd.value_counts col))
  ↔ Some name ∈ col
    ∧ size = length (filter (λ cell, cell = Some name) col) * 20
    ∧ 20 ≤ size
    ∧ c = (if decide (name = "Other") then lightgray else skyblue).
Proof.
  pose proof (value_counts_keys_NoDup col) as Hnd.
  unfold count_drawing. rewrite list_elem_of_fmap. split.
  - intros ([k n] & Heq & Hin). simpl in Heq. simplify_eq.
    apply elem_of_map_to_list, count_graph_lookup in Hin; [| done].
    apply value_counts_elem_of in Hin as [Hin ->].
    split_and!; [done | done | | done].
    apply elem_of_length_filter in Hin. lia.
  - intros (Hin & -> & _ & ->).
    exists (name, length (filter (λ cell, cell = Some name) col)).
    split; [done |].
    apply elem_of_map_to_list, count_graph_lookup; [done |].
    by apply value_counts_elem_of.
Qed.

Lemma sorted_desc_take_drop {A} (key : A → Z) (l : list A) n x y :
  Pd.sorted_desc key l → x ∈ take n l → y ∈ drop n l → (key y ≤ key x)%Z.
Proof.
  unfold Pd.sorted_desc. rewrite <- (take_drop n l) at 1.
  intros Hs Hx Hy.
  induction (take n l) as [| z t IH]; [by apply elem_of_nil in Hx |].
  simpl in Hs. apply StronglySorted_inv in Hs as [Hs Hz].
  apply elem_of_cons in Hx as [-> | Hx]; [| by apply IH].
  rewrite Forall_forall in Hz. apply Hz. apply elem_of_app. by right.
Qed.

Lemma sorted_desc_take {A} (key : A → Z) (l : list A) n :
  Pd.sorted_desc key l → Pd.sorted_desc key (take n l).
Proof.
  unfold Pd.sorted_desc. intros Hs. revert n.
  induction Hs as [| x l Hl IH Hx]; intros [| n]; simpl; try constructor.
  - apply IH.
  - rewrite Forall_forall in *. intros y Hy. apply Hx. by apply (subseteq_take n l).
Qed.

Lemma sort_values_desc_rows (rows : list (string * nat)) :
  rows ≠ [] →
  sort_values_desc rows = Py.Ok (Pd.sort_desc (λ r, Z.of_nat r.2) rows).
Proof. by destruct rows. Qed.

Lemma kind_rows_built k1 k2 rel rows k :
  let G := build_graph k1 k2 rel rows in
  ∃ table, kind_rows k G = Py.Ok table
    ∧ ∀ n d, (n, d) ∈ table
             ↔ n ∈ nodes G ∧ node_type G n = Some k ∧ d = degree G n.
Proof.
  intros G. unfold kind_rows.
  rewrite (apply_fmap _ (λ n, (n, default k1 (node_type G n)))).
  2:{ intros n Hn.
      destruct (build_graph_type_of k1 k2 rel rows n Hn) as [Hk | Hk];
        unfold type_of in *; fold G in Hk |- *;
        destruct (node_type G n); by simplify_eq/=. }
  simpl. eexists. split; [done |].
  intros n d. rewrite list_elem_of_fmap. split.
  - intros ([m ty] & Heq & Hin). simpl in Heq. simplify_eq.
    apply list_elem_of_filter in Hin as [Hty Hin]. simpl in Hty.
    apply list_elem_of_fmap in Hin as (n' & Heq & Hn). simplify_eq.
    split_and!; [done | | done].
    destruct (build_graph_type_of k1 k2 rel rows n' Hn) as [Hk | Hk];
      unfold type_of in Hk; fold G in Hk;
      destruct (node_type G n'); by simplify_eq/=.
  - intros (Hn & Hty & ->). exists (n, k). split; [done |].
    apply list_elem_of_filter. split; [done |].
    apply list_elem_of_fmap. exists n. by rewrite Hty.
Qed.

(** X18. The table of the top nodes of a kind that the scripts print for a
    built graph: when the graph has a node of the kind, it is computed
    without an exception, has at most 10 lines, each a node of the kind
    with its degree, in descending order of degree, and a node of the
    kind that is left out has a degree no larger than any line of the
    table. When the graph has no node of the kind, sorting the frame
    made from no row raises [KeyError]. With the kind of the second
    column and at least one row, there is always such a node. *)
Theorem top_table_spec k1 k2 rel rows k :
  let G := build_graph k1 k2 rel rows in
  ((∃ n, n ∈ nodes G ∧ node_type G n = Some k) →
   ∃ table, top_table k G = Py.Ok table
     ∧ length table ≤ 10
     ∧ Pd.sorted_desc (λ r, Z.of_nat r.2) table
     ∧ (∀ n d, (n, d) ∈ table →
               n ∈ nodes G ∧ node_type G n = Some k ∧ d = degree G n)
     ∧ (∀ n line, n ∈ nodes G → node_type G n = Some k →
                  (n, degree G n) ∉ table → line ∈ table →
                  degree G n ≤ line.2))
  ∧ ((∀ n, n ∈ nodes G → node_type G n ≠ Some k) →
     top_table k G = Py.Raise Py.KeyError)
  ∧ (rows ≠ [] → ∃ n, n ∈ nodes G ∧ node_type G n = Some k2).
Proof.
  intros G.
  destruct (kind_rows_built k1 k2 rel rows k) as (tbl & Htbl & Hspec).
  fold G in Htbl, Hspec.
  split_and!.
  - intros (n0 & Hn0 & Hk0). unfold top_table. rewrite Htbl. cbn [Py.bind].
    assert (tbl ≠ []) as Hne.
    { intros ->. assert ((n0, degree G n0) ∈ @nil (string * nat)) as Hin
        by by apply Hspec.
      by apply elem_of_nil in Hin. }
    rewrite (sort_values_desc_rows tbl Hne). cbn [Py.bind].
    eexists. split; [reflexivity |].
    pose proof (sort_desc_sorted (λ r : string * nat, Z.of_nat r.2) tbl) as Hs.
    split_and!.
    + unfold Pd.head. rewrite length_take. lia.
    + unfold Pd.head. by apply sorted_desc_take.
    + intros n d Hin. apply Hspec.
      apply (elem_of_sort_desc (λ r : string * nat, Z.of_nat r.2)).
      unfold Pd.head in Hin. by apply (subseteq_take 10 _) in Hin.
    + intros n line Hn Hk Hnot Hline.
      assert ((n, degree G n) ∈ Pd.sort_desc (λ r : string * nat, Z.of_nat r.2) tbl)
        as Hin by (apply elem_of_sort_desc; by apply Hspec).
      rewrite <- (take_drop 10 (Pd.sort_desc _ tbl)) in Hin.
      apply elem_of_app in Hin as [Hin | Hin]; [done |].
      pose proof (sorted_desc_take_drop _ _ 10 line (n, degree G n) Hs Hline Hin)
        as Hle. simpl in Hle. lia.
  - intros Hnone. unfold top_table. rewrite Htbl. cbn [Py.bind].
    destruct tbl as [| [n d] tbl0]; [done |].
    assert ((n, d) ∈ (n, d) :: tbl0) as Hin by by left.
    apply Hspec in Hin as (Hn & Hk & _). by destruct (Hnone n Hn).
  - intros Hne. destruct rows as [| r rows' _] using rev_ind; [done |].
    destruct r as [a b]. exists b. split.
    + apply elem_of_nodes. unfold G. rewrite build_graph_node_dom_snoc. set_solver.
    + unfold node_type, G. rewrite build_graph_snoc, build_step_node_lookup.
      by rewrite decide_True.
Qed.

(** ** Tables whose columns share no value *)

Lemma build_graph_node_lookup_type k1 k2 rel (rows : list (string * string)) n :
  g_node (build_graph k1 k2 rel rows) !! n
  = Some <$> node_type (build_graph k1 k2 rel rows) n.
Proof. by rewrite build_graph_node_type, build_graph_node_lookup. Qed.

(** X19. When no value occurs in both columns, the order of the rows plays
    no part at all: two tables that are permutations of each other give
    the same graph, node kinds included, and so the same hubs, the same
    subgraph and the same three numbers at every threshold. *)
Theorem disjoint_columns_row_order k1 k2 rel rows rows' mode k t :
  (∀ r r', r ∈ rows → r' ∈ rows → r.1 ≠ r'.2) →
  rows ≡ₚ rows' →
  build_graph k1 k2 rel rows = build_graph k1 k2 rel rows'
  ∧ degree_filter mode k (build_graph k1 k2 rel rows) t
    = degree_filter mode k (build_graph k1 k2 rel rows') t.
Proof.
  intros Hdisj Hperm.
  assert (∀ r r', r ∈ rows' → r' ∈ rows' → r.1 ≠ r'.2) as Hdisj'.
  { intros r r'. rewrite <- !Hperm. apply Hdisj. }
  assert (build_graph k1 k2 rel rows = build_graph k1 k2 rel rows') as Heq.
  { destruct (build_graph_same_rows k1 k2 rel rows rows') as [Hdom Hadj].
    { intros row. by rewrite Hperm. }
    apply graph_eq; [| exact Hadj].
    apply map_eq. intros n. rewrite !build_graph_node_lookup_type. f_equal.
    destruct (decide (n ∈ dom (g_node (build_graph k1 k2 rel rows)))) as [Hn | Hn].
    - apply build_graph_node_dom in Hn as ([a b] & Hrow & Hn). simpl in Hn.
      assert ((a, b) ∈ rows') as Hrow' by by rewrite <- Hperm.
      destruct (disjoint_column_kinds k1 k2 rel rows a b Hdisj Hrow) as [Ha Hb].
      destruct (disjoint_column_kinds k1 k2 rel rows' a b Hdisj' Hrow')
        as [Ha' Hb'].
      destruct Hn as [-> | ->]; congruence.
    - assert (n ∉ dom (g_node (build_graph k1 k2 rel rows'))) as Hn'
        by by rewrite <- Hdom.
      apply not_elem_of_dom in Hn, Hn'.
      rewrite build_graph_node_lookup_type in Hn, Hn'.
      destruct (node_type (build_graph k1 k2 rel rows) n),
        (node_type (build_graph k1 k2 rel rows') n); done. }
  split; [exact Heq |]. rewrite Heq. reflexivity.
Qed.

Lemma disjoint_columns_row_order_witness :
  degree_filter Strict Kip (tab1_graph ex_rows) 2
  = degree_filter Strict Kip (tab1_graph (reverse ex_rows)) 2.
Proof.
  apply (disjoint_columns_row_order Kdomain Kip (Some HOSTED_ON)
           ex_rows (reverse ex_rows) Strict Kip 2 ex_rows_disjoint).
  symmetry. apply reverse_Permutation.
Defined.

(** X20. When no value occurs in both columns and the two kinds differ,
    the only nodes of the filtered kind in the drawing are the hubs: a
    node of that kind below the threshold is never shown, since what a
    hub pulls in is of the other kind. *)
Theorem only_hubs_of_kind_shown k1 k2 rel rows mode k t n :
  (∀ r r', r ∈ rows → r' ∈ rows → r.1 ≠ r'.2) →
  k1 ≠ k2 →
  let G := build_graph k1 k2 rel rows in
  n ∈ nodes (degree_filter mode k G t).1 →
  node_type G n = Some k →
  n ∈ high_degree mode k G t.
Proof.
  intros Hdisj Hne G Hn Hk.
  unfold degree_filter in Hn. cbn [fst] in Hn.
  rewrite elem_of_nodes, subgraph_node_dom in Hn.
  apply elem_of_intersection in Hn as [Hn _].
  apply elem_of_nodes_to_draw in Hn as [Hn | (h & Hh & Hedge)]; [done |].
  exfalso.
  apply elem_of_high_degree in Hh as (_ & _ & Hhk).
  apply build_graph_has_edge in Hedge as [Hrow | Hrow].
  - destruct (disjoint_column_kinds k1 k2 rel rows h n Hdisj Hrow) as [Ha Hb].
    fold G in Ha, Hb. congruence.
  - destruct (disjoint_column_kinds k1 k2 rel rows n h Hdisj Hrow) as [Ha Hb].
    fold G in Ha, Hb. congruence.
Qed.

Lemma only_hubs_of_kind_shown_witness :
  "ip1" ∈ high_degree Strict Kip (tab1_graph ex_rows) 2.
Proof.
  apply (only_hubs_of_kind_shown Kdomain Kip (Some HOSTED_ON) ex_rows
           Strict Kip 2 "ip1" ex_rows_disjoint).
  - done.
  - apply (bool_decide_unpack _). by vm_compute.
  - by vm_compute.
Defined.
